(** * VoiceManager (src/clients/discord/voice.ts): a shallow embedding

    The development follows the source file:
    - [Monitor]: the closure that [handleUserStream] hands to [AudioMonitor]
      (the accumulator [buffers], [totalLength], [lastChunkTime] and the
      flush test);
    - [Pipeline]: the body of the [try { ... } catch] block run on a flushed
      buffer, as a trace of calls to the collaborators;
    - [Loop]: chunk deliveries interleaved with resumptions of pipelines
      suspended on an [await];
    - [Guild]: [scanGuild];
    - [Registry]: [monitorMember], the stream close handler and
      [playAudioStream] over the two maps [streams] and [connections]. *)

From Stdlib Require Import ZArith Lia List Bool String Ascii.
From stdpp Require Import base option list gmap strings.
Import ListNotations.

Local Open Scope Z_scope.

(** A Node [Buffer] is a sequence of bytes; [buffer.length] is its size. *)
Definition Buffer : Type := list Byte.byte.

Definition blen (b : Buffer) : Z := Z.of_nat (length b).
Arguments blen : simpl never.

(** Sum of the sizes of a list of buffers. *)
Definition total_size (l : list Buffer) : Z :=
  fold_right (fun b acc => blen b + acc) 0 l.

(** [Buffer.concat(list, totalLength)]: the buffers are copied one after the
    other into a fresh buffer of [totalLength] bytes; what does not fit is cut
    off, what is not reached stays zero. *)
Definition Buffer_concat (l : list Buffer) (totalLength : Z) : Buffer :=
  let all := concat l in
  firstn (Z.to_nat totalLength) all
    ++ repeat Byte.x00 (Z.to_nat totalLength - length all)%nat.

(** A buffer of [n] zero bytes. *)
Definition zeros (n : Z) : Buffer := repeat Byte.x00 (Z.to_nat n).

(** ** The closure of [handleUserStream] (lines 81-98) *)

Module Monitor.

(** The three variables captured by the closure. *)
Record Accumulator : Type := mkAcc {
  buffers : list Buffer;
  totalLength : Z;
  lastChunkTime : Z
}.

Definition maxSilenceTime : Z := 500.
Definition maxUtteranceBytes : Z := 1000000.

(** State when [handleUserStream] returns: [lastChunkTime = Date.now()]. *)
Definition init (now : Z) : Accumulator := mkAcc [] 0 now.

(** The flush test of line 94. *)
Definition shouldFlush (silenceDuration total : Z) : bool :=
  (silenceDuration >? maxSilenceTime) || (total >=? maxUtteranceBytes).

(** The synchronous part of the closure, up to the first [await]:
    [currentTime] is the reading of [Date.now()], [buffer] the argument
    with which [AudioMonitor] (audioMonitor.ts) calls the closure.
    The result is the new accumulator and, on a flush, [inputBuffer]. *)
Definition onBuffer (st : Accumulator) (currentTime : Z) (buffer : Buffer)
  : Accumulator * option Buffer :=
  let silenceDuration := currentTime - lastChunkTime st in
  let buffers' := buffers st ++ [buffer] in
  let totalLength' := totalLength st + blen buffer in
  if shouldFlush silenceDuration totalLength' then
    (mkAcc [] 0 currentTime, Some (Buffer_concat buffers' totalLength'))
  else
    (mkAcc buffers' totalLength' currentTime, None).

(** One delivery: the clock reading and the chunk. *)
Definition Arrival : Type := (Z * Buffer)%type.

(** The closure run on a sequence of deliveries; the second component
    collects the flushed buffers in order. *)
Fixpoint run (st : Accumulator) (l : list Arrival)
  : Accumulator * list Buffer :=
  match l with
  | [] => (st, [])
  | (t, c) :: l' =>
      let '(st1, out) := onBuffer st t c in
      let '(st2, outs) := run st1 l' in
      (st2, match out with Some u => u :: outs | None => outs end)
  end.

(** [totalLength] is the size of what [buffers] holds. *)
Definition consistent (st : Accumulator) : Prop :=
  totalLength st = total_size (buffers st).

(** Every clock reading is at most [maxSilenceTime] after the one before;
    the first is compared with the reading taken by [handleUserStream]. *)
Fixpoint gaps_within (last : Z) (l : list Arrival) : Prop :=
  match l with
  | [] => True
  | (t, _) :: l' => t - last <= maxSilenceTime /\ gaps_within t l'
  end.

(** The gaps between consecutive deliveries only: the time between the
    set-up and the first delivery is not looked at. *)
Definition inter_arrival_within (l : list Arrival) : Prop :=
  match l with
  | [] => True
  | (t, _) :: l' => gaps_within t l'
  end.

Definition chunks (l : list Arrival) : list Buffer := map snd l.

(** Four chunks delivered 50 ms apart, the first at the reading [first]
    of the clock. *)
Definition spaced (first : Z) (A B C D : Buffer) : list Arrival :=
  [(first, A); (first + 50, B); (first + 100, C); (first + 150, D)].

(** Four chunks delivered 50 ms apart, the first 50 ms after the set-up. *)
Definition scenario (start : Z) (A B C D : Buffer) : list Arrival :=
  [(start + 50, A); (start + 100, B); (start + 150, C); (start + 200, D)].

End Monitor.

(** ** The utterance pipeline (lines 99-151) *)

Module Pipeline.

Definition UUID : Type := string.
Definition Error : Type := string.
(** Handles of the objects that only pass through this file. *)
Definition State : Type := nat.
Definition Stream : Type := nat.

(** The payload of [handleMessage]; a field is [None] when it is absent. *)
Record Response : Type := mkResponse {
  responseMessage : option string;
  content : option string;
  message : option string
}.

(** JavaScript truthiness of a possibly absent string. *)
Definition truthy (s : option string) : bool :=
  match s with
  | Some (String _ _) => true
  | _ => false
  end.

(** [a || b] *)
Definition js_or (a b : option string) : option string :=
  if truthy a then a else b.

(** [text && text.startsWith("/")] *)
Definition isCommand (text : option string) : bool :=
  match text with
  | Some s => truthy text && String.prefix "/" s
  | None => false
  end.
Arguments isCommand : simpl never.

(** What a call to a collaborator does: it returns or it throws. *)
Inductive Outcome (A : Type) : Type :=
  | Ok (a : A)
  | Throw (e : Error).
Arguments Ok {A} a.
Arguments Throw {A} e.

(** The collaborators of section 6, [getUuid] and the two settings. *)
Record World : Type := mkWorld {
  transcribe : Buffer -> Outcome (option string);
  fetchBotName : string -> Outcome string;
  ensureUserExists : UUID -> string -> Outcome unit;
  ensureRoomExists : UUID -> Outcome unit;
  ensureParticipantInRoom : UUID -> UUID -> Outcome unit;
  composeState : option string -> UUID -> UUID -> string -> Outcome State;
  handleMessage : option string -> UUID -> UUID -> State -> Outcome Response;
  textToSpeech : string -> Outcome (option Stream);
  getUuid : string -> UUID;
  DISCORD_APPLICATION_ID : string;
  DISCORD_API_TOKEN : string
}.

(** The arguments of [handleUserStream] the closure captures. *)
Record Speaker : Type := mkSpeaker {
  user_id : string;
  userName : string;
  channelId : string
}.

(** Calls that leave the closure, with their arguments. *)
Inductive Event : Type :=
  | Call_transcribe (inputBuffer : Buffer)
  | Call_fetchBotName (token : string)
  | Call_ensureUserExists (id : UUID) (name : string)
  | Call_ensureRoomExists (room_id : UUID)
  | Call_ensureParticipantInRoom (id room_id : UUID)
  | Call_composeState (text : option string) (id room_id : UUID)
      (agentName : string)
  | Call_handleMessage (text : option string) (id room_id : UUID)
      (state : State)
  | Call_textToSpeech (content : string)
  | Call_playAudioStream (user : string) (responseStream : Stream)
  | Console_error (e : Error).

(** Computations that log their calls and may throw. *)
Definition M (A : Type) : Type := (list Event * Outcome A)%type.

Definition ret {A : Type} (a : A) : M A := ([], Ok a).

Definition bind {A B : Type} (m : M A) (k : A -> M B) : M B :=
  match m with
  | (tr, Ok a) => let '(tr', r) := k a in (tr ++ tr', r)
  | (tr, Throw e) => (tr, Throw e)
  end.

Definition call {A : Type} (ev : Event) (r : Outcome A) : M A := ([ev], r).

Definition try_catch {A : Type} (body : M A) (handler : Error -> M A) : M A :=
  match body with
  | (tr, Ok a) => (tr, Ok a)
  | (tr, Throw e) => let '(tr', r) := handler e in (tr ++ tr', r)
  end.

Notation "x <- m ;; k" := (bind m (fun x => k))
  (at level 100, m at next level, right associativity).

(** Lines 99-151: the [try] block and its [catch]. [callback] is not
    awaited: the closure only starts [playAudioStream]. *)
Definition process (w : World) (sp : Speaker) (inputBuffer : Buffer) : M unit :=
  try_catch
    (text <- call (Call_transcribe inputBuffer) (transcribe w inputBuffer) ;;
     let room_id := getUuid w (channelId sp) in
     let userIdUUID := getUuid w (user_id sp) in
     let agentId := getUuid w (DISCORD_APPLICATION_ID w) in
     botName <- call (Call_fetchBotName (DISCORD_API_TOKEN w))
                     (fetchBotName w (DISCORD_API_TOKEN w)) ;;
     _ <- call (Call_ensureUserExists agentId botName)
               (ensureUserExists w agentId botName) ;;
     _ <- call (Call_ensureUserExists userIdUUID (userName sp))
               (ensureUserExists w userIdUUID (userName sp)) ;;
     _ <- call (Call_ensureRoomExists room_id) (ensureRoomExists w room_id) ;;
     _ <- call (Call_ensureParticipantInRoom userIdUUID room_id)
               (ensureParticipantInRoom w userIdUUID room_id) ;;
     _ <- call (Call_ensureParticipantInRoom agentId room_id)
               (ensureParticipantInRoom w agentId room_id) ;;
     state <- call (Call_composeState text userIdUUID room_id botName)
                   (composeState w text userIdUUID room_id botName) ;;
     if isCommand text then ret tt
     else
       response <- call (Call_handleMessage text userIdUUID room_id state)
                        (handleMessage w text userIdUUID room_id state) ;;
       match js_or (js_or (responseMessage response) (content response))
                   (message response) with
       | Some (String a s) =>
           responseStream <- call (Call_textToSpeech (String a s))
                                  (textToSpeech w (String a s)) ;;
           match responseStream with
           | Some rs => call (Call_playAudioStream (user_id sp) rs) (Ok tt)
           | None => ret tt
           end
       | _ => ret tt
       end)
    (fun error => call (Console_error error) (Ok tt)).

Definition trace (w : World) (sp : Speaker) (inputBuffer : Buffer)
  : list Event := fst (process w sp inputBuffer).

(** The error a call raises in [w], if it raises one. *)
Definition error_of {A : Type} (r : Outcome A) : option Error :=
  match r with
  | Ok _ => None
  | Throw e => Some e
  end.

Definition raised (w : World) (ev : Event) : option Error :=
  match ev with
  | Call_transcribe b => error_of (transcribe w b)
  | Call_fetchBotName tok => error_of (fetchBotName w tok)
  | Call_ensureUserExists id name => error_of (ensureUserExists w id name)
  | Call_ensureRoomExists r => error_of (ensureRoomExists w r)
  | Call_ensureParticipantInRoom id r =>
      error_of (ensureParticipantInRoom w id r)
  | Call_composeState t id r n => error_of (composeState w t id r n)
  | Call_handleMessage t id r s => error_of (handleMessage w t id r s)
  | Call_textToSpeech c => error_of (textToSpeech w c)
  | Call_playAudioStream _ _ => None
  | Console_error _ => None
  end.

(** A trace in which a call that raises is followed by the report of its
    error on the console and by nothing else. *)
Fixpoint handled (w : World) (l : list Event) : Prop :=
  match l with
  | [] => True
  | ev :: post =>
      match raised w ev with
      | Some e => post = [Console_error e]
      | None => handled w post
      end
  end.

(** A world in which every call returns: the transcription is [text], the
    bot is called Ben, the agent answers in the [content] field. *)
Definition calm (text : option string) : World :=
  mkWorld (fun _ => Ok text)
          (fun _ => Ok "Ben"%string)
          (fun _ _ => Ok tt)
          (fun _ => Ok tt)
          (fun _ _ => Ok tt)
          (fun _ _ _ _ => Ok 0%nat)
          (fun _ _ _ _ => Ok (mkResponse None (Some "hello"%string) None))
          (fun _ => Ok (Some 0%nat))
          (fun s => s)
          "app"%string
          "token"%string.

(** The same world with a transcription service that fails. *)
Definition deaf : World :=
  mkWorld (fun _ => Throw "transcription failed"%string)
          (fetchBotName (calm None))
          (ensureUserExists (calm None))
          (ensureRoomExists (calm None))
          (ensureParticipantInRoom (calm None))
          (composeState (calm None))
          (handleMessage (calm None))
          (textToSpeech (calm None))
          (getUuid (calm None))
          (DISCORD_APPLICATION_ID (calm None))
          (DISCORD_API_TOKEN (calm None)).

Definition lily : Speaker :=
  mkSpeaker "42"%string "Lily"%string "general"%string.

(** Calls to the agent made before the message is dispatched. *)
Definition isAgentSetup (ev : Event) : bool :=
  match ev with
  | Call_ensureUserExists _ _ | Call_ensureRoomExists _
  | Call_ensureParticipantInRoom _ _ | Call_composeState _ _ _ _ => true
  | _ => false
  end.

(** Message dispatch, synthesis and playback. *)
Definition isResponse (ev : Event) : bool :=
  match ev with
  | Call_handleMessage _ _ _ _ | Call_textToSpeech _
  | Call_playAudioStream _ _ => true
  | _ => false
  end.

End Pipeline.

(** ** Deliveries and suspended pipelines on the event loop *)

Module Loop.
Import Monitor Pipeline.

(** The accumulator of one [handleUserStream], the pipelines it has started
    (each with the calls it has still to make) and the calls made so far. *)
Record System : Type := mkSystem {
  acc : Accumulator;
  tasks : list (list Event);
  log : list Event
}.

(** The event loop either delivers a chunk to the closure or resumes a
    suspended pipeline. A resumption makes one call; the real loop resumes
    at each [await], so every real schedule is among these. *)
Inductive Tick : Type :=
  | Deliver (now : Z) (chunk : Buffer)
  | Resume (i : nat).

Definition step (w : World) (sp : Speaker) (s : System) (k : Tick) : System :=
  match k with
  | Deliver now chunk =>
      let '(a, out) := onBuffer (acc s) now chunk in
      match out with
      | None => mkSystem a (tasks s) (log s)
      | Some inputBuffer =>
          match trace w sp inputBuffer with
          | ev :: rest => mkSystem a (tasks s ++ [rest]) (log s ++ [ev])
          | [] => mkSystem a (tasks s) (log s)
          end
      end
  | Resume i =>
      match tasks s !! i with
      | Some (ev :: rest) =>
          mkSystem (acc s) (<[i := rest]> (tasks s)) (log s ++ [ev])
      | _ => s
      end
  end.

Definition exec (w : World) (sp : Speaker) (s : System) (ks : list Tick)
  : System := fold_left (step w sp) ks s.

Definition start (now : Z) : System := mkSystem (init now) [] [].

(** The chunks a schedule delivers, in order. *)
Definition delivered (ks : list Tick) : list Buffer :=
  omap (fun k => match k with Deliver _ c => Some c | Resume _ => None end) ks.

Definition deliveries (ks : list Tick) : list Arrival :=
  omap (fun k => match k with Deliver t c => Some (t, c) | Resume _ => None end)
       ks.

(** A list of calls none of which goes to the transcription service. *)
Definition silent (l : list Event) : Prop :=
  Forall (fun ev => forall u, ev <> Call_transcribe u) l.

(** The utterances handed to the transcription service, in order. *)
Definition utterances (l : list Event) : list Buffer :=
  omap (fun ev => match ev with Call_transcribe b => Some b | _ => None end) l.

End Loop.

(** ** [scanGuild] (lines 156-176) *)

Module Guild.

Inductive ChannelType : Type :=
  | GuildText
  | GuildVoice
  | GuildCategory
  | GuildStageVoice.

Definition isGuildVoice (t : ChannelType) : bool :=
  match t with
  | GuildVoice => true
  | _ => false
  end.

Record GuildMember : Type := mkMember {
  id : string;
  displayName : string;
  guildId : string;
  bot : bool
}.

(** [members] holds whoever is connected to the channel; [joinChannel]
    (line 196) skips the bots among them. *)
Record Channel : Type := mkChannel {
  channelId : string;
  type : ChannelType;
  members : list GuildMember
}.

(** [voiceChannel.members.size] *)
Definition size (c : Channel) : nat := length (members c).

(** The result of [guild.channels.fetch()] in iteration order, an entry
    being [None] for a null channel, filtered by
    [channel?.type == ChannelType.GuildVoice]. *)
Definition voiceChannels (fetched : list (option Channel)) : list Channel :=
  omap (fun c => match c with
                 | Some ch => if isGuildVoice (type ch) then Some ch else None
                 | None => None
                 end) fetched.

(** The body of the [for] loop. *)
Definition consider (chosenChannel : option Channel) (voiceChannel : Channel)
  : option Channel :=
  if (0 <? size voiceChannel)%nat
     && match chosenChannel with
        | None => true
        | Some chosen => (size chosen <? size voiceChannel)%nat
        end
  then Some voiceChannel
  else chosenChannel.

(** The channel handed to [joinChannel], if any. *)
Definition scanGuild (fetched : list (option Channel)) : option Channel :=
  fold_left consider (voiceChannels fetched) None.

(** What the loop of [scanGuild] has established after the channels [seen]:
    nothing chosen and all of them empty, or the first of the fullest. *)
Definition chosen_from (seen : list Channel) (chosen : option Channel) : Prop :=
  match chosen with
  | Some ch =>
      (0 < size ch)%nat
      /\ exists l1 l2 : list Channel,
           seen = l1 ++ ch :: l2
           /\ Forall (fun c => (size c < size ch)%nat) l1
           /\ Forall (fun c => (size c <= size ch)%nat) l2
  | None => Forall (fun c => size c = 0%nat) seen
  end.

(** Members of a channel that are not bots. *)
Definition nonBots (c : Channel) : nat :=
  length (filter (fun m => bot m = false) (members c)).

(** A guild with two voice channels: two bots sit in the first, one person
    in the second. *)
Definition lilyMember : GuildMember :=
  mkMember "42"%string "Lily"%string "guild"%string false.

Definition botRoom : Channel :=
  mkChannel "bots"%string GuildVoice
            [mkMember "1"%string "MusicBot"%string "guild"%string true;
             mkMember "2"%string "ModBot"%string "guild"%string true].

Definition lounge : Channel :=
  mkChannel "lounge"%string GuildVoice [lilyMember].

Definition smallGuild : list (option Channel) :=
  [Some (mkChannel "general"%string GuildText []); None;
   Some botRoom; Some lounge].

End Guild.

(** ** The registry: [monitorMember] and [playAudioStream] (lines 214-301) *)

Module Registry.
Import Guild.

Definition Decoder : Type := nat.
Definition Connection : Type := nat.

(** An audio player with the connection it is subscribed to and the
    resource it plays. *)
Record Player : Type := mkPlayer {
  subscribedTo : Connection;
  resource : Pipeline.Stream
}.

(** A [userStream] event emitted on the client. *)
Record UserStream : Type := mkUserStream {
  us_user : string;
  us_name : string;
  us_channel : string;
  us_decoder : Decoder
}.

(** The two maps of the class, the decoders and players created so far,
    the events emitted and the console. *)
Record Manager : Type := mkManager {
  streams : gmap string Decoder;
  connections : gmap string Connection;
  decoders : nat;
  players : list Player;
  emitted : list UserStream;
  console : list string
}.

(** What the voice library answers at the time of a call:
    [getVoiceConnection(guildId)] and the [readableLength] of the stream
    that [connection.receiver.subscribe(user_id)] returns. *)
Record Voice : Type := mkVoice {
  getVoiceConnection : string -> option Connection;
  readableLength : Connection -> string -> nat
}.

Definition empty : Manager := mkManager ∅ ∅ 0 [] [] [].

(** [monitorMember]. Without a connection [receiveStream] is undefined,
    the decoder is created and [pipeline] rejects its source. *)
Definition monitorMember (v : Voice) (member : GuildMember) (channel : Channel)
    (st : Manager) : Manager * Pipeline.Outcome unit :=
  let user_id := id member in
  let userName := displayName member in
  match getVoiceConnection v (guildId member) with
  | Some connection =>
      if (0 <? readableLength v connection user_id)%nat then
        (st, Pipeline.Ok tt)
      else
        let opusDecoder := decoders st in
        (mkManager (<[user_id := opusDecoder]> (streams st))
                   (<[user_id := connection]> (connections st))
                   (S (decoders st))
                   (players st)
                   (emitted st ++ [mkUserStream user_id userName
                                                (channelId channel)
                                                opusDecoder])
                   (console st),
         Pipeline.Ok tt)
  | None =>
      (mkManager (streams st) (connections st) (S (decoders st))
                 (players st) (emitted st) (console st),
       Pipeline.Throw "ERR_INVALID_ARG_TYPE"%string)
  end.

(** [streamCloseHandler] of a member. *)
Definition streamCloseHandler (member : GuildMember) (st : Manager) : Manager :=
  mkManager (delete (id member) (streams st))
            (delete (id member) (connections st))
            (decoders st) (players st) (emitted st)
            (console st ++ [("voice stream from " ++ displayName member
                               ++ " closed")%string]).

(** [playAudioStream]. *)
Definition playAudioStream (user_id : string) (audioStream : Pipeline.Stream)
    (st : Manager) : Manager :=
  match connections st !! user_id with
  | None =>
      mkManager (streams st) (connections st) (decoders st) (players st)
                (emitted st)
                (console st ++ [("No connection for user " ++ user_id)%string])
  | Some connection =>
      mkManager (streams st) (connections st) (decoders st)
                (players st ++ [mkPlayer connection audioStream])
                (emitted st) (console st)
  end.

(** A voice library with one connection, whose receive streams hold
    [unread] bytes. *)
Definition connected (unread : nat) : Voice :=
  mkVoice (fun _ => Some 7%nat) (fun _ _ => unread).

End Registry.

(** ** Presence: voice state updates, [joinChannel] and the speaking
    events (lines 57-62 and 178-212) *)

Module Presence.
Import Guild Registry.

(** A [VoiceState]: the member it is about (absent when not cached), the
    id of the channel the member is in ([None] for null) and that channel
    as the cache resolves it. *)
Record VoiceState : Type := mkVoiceState {
  vs_member : option GuildMember;
  vs_channelId : option string;
  vs_channel : option Channel
}.

(** [state?.channelId]: null and undefined are not told apart by [!=]. *)
Definition channelIdOf (state : option VoiceState) : option string :=
  match state with
  | Some s => vs_channelId s
  | None => None
  end.

(** [newState?.member?.user.bot] *)
Definition isBotUpdate (newState : option VoiceState) : bool :=
  match newState with
  | Some s => match vs_member s with
              | Some m => bot m
              | None => false
              end
  | None => false
  end.

(** [handleVoiceStateUpdate]: the argument of the call to [joinChannel],
    if the call is made. *)
Definition handleVoiceStateUpdate (oldState newState : option VoiceState)
  : option (option Channel) :=
  if isBotUpdate newState then None
  else
    match newState with
    | Some s =>
        match vs_channelId s with
        | Some c =>
            if decide (channelIdOf oldState = Some c) then None
            else Some (vs_channel s)
        | None => None
        end
    | None => None
    end.

(** The loop of [joinChannel] over [channel.members]: [monitorMember] is
    started for each member that is not a bot; it has no [await], so it
    has run when the loop goes on, and an error in it does not stop the
    loop. *)
Definition monitorAll (v : Voice) (channel : Channel)
    (ms : list GuildMember) (st : Manager) : Manager :=
  fold_left (fun s member =>
               if bot member then s
               else fst (monitorMember v member channel s))
            ms st.

(** What [getVoiceConnection(channel.guildId)] finds and how
    [oldConnection.destroy()] ends. A destroy that returns closes the
    receive streams of the old connection: [closed] lists, one per close
    handler attached (lines 250-254 and 263), the members whose handler
    then runs. A destroy that raises closes nothing. *)
Inductive OldConnection : Type :=
  | NoConnection
  | Destroyed (closed : list GuildMember)
  | DestroyFailed (error : Pipeline.Error).

Definition closedBy (oldConnection : OldConnection) : list GuildMember :=
  match oldConnection with
  | Destroyed closed => closed
  | _ => []
  end.

(** The close handlers of [closed], run in order. *)
Definition closeAll (closed : list GuildMember) (st : Manager) : Manager :=
  fold_left (fun s member => streamCloseHandler member s) closed st.

(** [joinChannel], up to the point where the close events that the destroy
    has set off have been handled. The body has no [await]: it destroys
    the old connection, joins, and monitors the members in one go; the
    streams of the old connection emit "close" only afterwards, so their
    handlers delete by user id what they find then, entries that the loop
    has just put in included. [v] is what the voice library answers once
    [joinVoiceChannel] has returned; it is the library's business and
    depends on how the destroy has ended (after a destroy that raised,
    the connection it gives is the old one). *)
Definition joinChannel (oldConnection : OldConnection) (v : Voice)
    (channel : Channel) (st : Manager) : Manager :=
  let st1 :=
    match oldConnection with
    | DestroyFailed error =>
        mkManager (streams st) (connections st) (decoders st) (players st)
                  (emitted st)
                  (console st
                     ++ [("Error leaving voice channel: " ++ error)%string])
    | _ => st
    end in
  closeAll (closedBy oldConnection)
           (monitorAll v channel (members channel) st1).

(** [channel.members.get(user_id)] *)
Definition membersGet (channel : Channel) (user_id : string)
  : option GuildMember :=
  List.find (fun m => String.eqb (id m) user_id) (members channel).

(** The listener of the speaking "start" event. With the new manager comes
    the decoder on which "speakingStarted" is emitted, if there is one.
    For an id that is not among the members, [monitorMember(undefined)]
    fails on [member.id] before it does anything. *)
Definition onSpeakingStart (v : Voice) (channel : Channel) (user_id : string)
    (st : Manager) : Manager * option Decoder :=
  match membersGet channel user_id with
  | Some user =>
      if bot user then (st, None)
      else
        let st' := fst (monitorMember v user channel st) in
        (st', streams st' !! user_id)
  | None => (st, streams st !! user_id)
  end.

(** The listener of the speaking "end" event: the decoder on which
    "speakingStopped" is emitted, if there is one. *)
Definition onSpeakingEnd (channel : Channel) (user_id : string)
    (st : Manager) : option Decoder :=
  match membersGet channel user_id with
  | Some user => if bot user then None else streams st !! user_id
  | None => streams st !! user_id
  end.

(** What can happen to the registry, and the managers reached from the
    empty one. *)
Inductive Op : Type :=
  | Monitor (v : Voice) (member : GuildMember) (channel : Channel)
  | StreamClose (member : GuildMember)
  | Play (user_id : string) (audioStream : Pipeline.Stream)
  | Join (oldConnection : OldConnection) (v : Voice) (channel : Channel)
  | SpeakingStart (v : Voice) (channel : Channel) (user_id : string).

Definition apply (st : Manager) (op : Op) : Manager :=
  match op with
  | Monitor v member channel => fst (monitorMember v member channel st)
  | StreamClose member => streamCloseHandler member st
  | Play user_id audioStream => playAudioStream user_id audioStream st
  | Join oldConnection v channel => joinChannel oldConnection v channel st
  | SpeakingStart v channel user_id =>
      fst (onSpeakingStart v channel user_id st)
  end.

Definition after (ops : list Op) : Manager := fold_left apply ops empty.

(** The two maps have the same keys, every registered decoder has been
    created, and no decoder is registered for two users. *)
Definition coherent (st : Manager) : Prop :=
  dom (streams st) = dom (connections st)
  /\ (forall u d, streams st !! u = Some d -> (d < decoders st)%nat)
  /\ (forall u1 u2 d,
        streams st !! u1 = Some d -> streams st !! u2 = Some d -> u1 = u2).

(** One of the bots of [botRoom]. *)
Definition botRoomMember : GuildMember :=
  mkMember "1"%string "MusicBot"%string "guild"%string true.

(** Every member has a connection in its guild and nothing unread on its
    receive stream. *)
Definition allReady (v : Voice) (ms : list GuildMember) : Prop :=
  Forall (fun m => exists c, getVoiceConnection v (guildId m) = Some c
                             /\ readableLength v c (id m) = 0%nat) ms.

End Presence.

(** ** [textToSpeech] (lines 349-376) *)

Module Speech.
Import Pipeline.

Definition Engine : Type := nat.
(** The samples that the engine returns: a handle, they only pass through
    to the encoder. *)
Definition Audio : Type := nat.

(** What [textToSpeech] resolves to: the stream of the remote service or a
    read stream on a file. *)
Inductive Readable : Type :=
  | Remote (handle : nat)
  | FileStream (path : string).

(** The environment at the time of a step: the variable
    ELEVENLABS_XI_API_KEY, the remote service, [SpeechSynthesizer.create],
    [synthesize] of an engine and [WavEncoder.encode.sync]. *)
Record Env : Type := mkEnv {
  ELEVENLABS_XI_API_KEY : option string;
  elevenlabs : string -> Outcome Readable;
  create : string -> Outcome Engine;
  synthesize : Engine -> string -> Outcome Audio;
  encode : Audio -> Buffer
}.

(** The field [speechSynthesizer] and the files written. *)
Record Synth : Type := mkSynth {
  speechSynthesizer : option Engine;
  files : gmap string Buffer
}.

Inductive Event : Type :=
  | E_elevenlabs (text : string)
  | E_create (path : string)
  | E_synthesize (engine : Engine) (text : string)
  | E_writeFile (path : string) (data : Buffer)
  | E_createReadStream (path : string).

(** Where a call is suspended. *)
Inductive Pc : Type :=
  | AtRemote (text : string)
  | AtCreate (text : string)
  | AtSynthesize (engine : Engine) (text : string)
  | Finished (result : Outcome Readable).

(** The call up to its first suspension. *)
Definition begin (env : Env) (st : Synth) (text : string)
  : Synth * list Event * Pc :=
  if truthy (ELEVENLABS_XI_API_KEY env) then
    (st, [E_elevenlabs text], AtRemote text)
  else
    match speechSynthesizer st with
    | None => (st, [E_create "./model.onnx"], AtCreate text)
    | Some engine => (st, [E_synthesize engine text], AtSynthesize engine text)
    end.

(** The call from one suspension to the next, in the environment and the
    state it finds when it is resumed. *)
Definition resume (env : Env) (st : Synth) (pc : Pc)
  : Synth * list Event * Pc :=
  match pc with
  | AtRemote text => (st, [], Finished (elevenlabs env text))
  | AtCreate text =>
      match create env "./model.onnx" with
      | Ok engine =>
          (mkSynth (Some engine) (files st),
           [E_synthesize engine text], AtSynthesize engine text)
      | Throw e => (st, [], Finished (Throw e))
      end
  | AtSynthesize engine text =>
      match synthesize env engine text with
      | Ok audio =>
          let data := encode env audio in
          (mkSynth (speechSynthesizer st)
                   (<["buffer.wav"%string := data]> (files st)),
           [E_writeFile "buffer.wav" data; E_createReadStream "buffer.wav"],
           Finished (Ok (FileStream "buffer.wav")))
      | Throw e => (st, [], Finished (Throw e))
      end
  | Finished result => (st, [], Finished result)
  end.

(** A call that nothing interrupts: it is resumed until it has finished,
    which takes at most two resumptions. *)
Definition textToSpeech (env : Env) (st : Synth) (text : string)
  : Synth * list Event * Pc :=
  let '(st1, ev1, pc1) := begin env st text in
  let '(st2, ev2, pc2) := resume env st1 pc1 in
  let '(st3, ev3, pc3) := resume env st2 pc2 in
  (st3, ev1 ++ ev2 ++ ev3, pc3).

(** Calls made one after the other, each in its own environment: the
    final state, all events and the results in order. *)
Fixpoint sequence (st : Synth) (calls : list (Env * string))
  : Synth * list Event * list Pc :=
  match calls with
  | [] => (st, [], [])
  | (env, text) :: rest =>
      let '(st1, ev, pc) := textToSpeech env st text in
      let '(st2, evs, pcs) := sequence st1 rest in
      (st2, ev ++ evs, pc :: pcs)
  end.

(** An environment without the API key, in which [create] returns
    [engine] and every text is synthesized, and one with the key. *)
Definition localEnv (engine : Engine) : Env :=
  mkEnv None
        (fun _ => Throw "no API key"%string)
        (fun _ => Ok engine)
        (fun _ text => Ok (String.length text))
        (fun audio => repeat Byte.x00 audio).

Definition remoteEnv : Env :=
  mkEnv (Some "key"%string)
        (fun _ => Ok (Remote 0%nat))
        (create (localEnv 0%nat))
        (synthesize (localEnv 0%nat))
        (encode (localEnv 0%nat)).

Definition isCreate (ev : Event) : bool :=
  match ev with
  | E_create _ => true
  | _ => false
  end.

End Speech.

(** ** The slash commands (lines 303-347) *)

Module Commands.
Import Guild Pipeline.

(** A channel of the guild's cache with its name. *)
Record CachedChannel : Type := mkCached {
  cc_channel : Channel;
  name : string
}.

(** An interaction: the value of its "channel" option, the channels of
    its guild ([None] without a guild) and what [interaction.reply] does
    with a message. *)
Record Interaction : Type := mkInteraction {
  channelOption : option string;
  guildChannels : option (list CachedChannel);
  reply : string -> Outcome unit
}.

Inductive Event : Type :=
  | Reply (msg : string)
  | JoinChannel (channel : Channel)
  | Destroy
  | ConsoleError (e : Error).

Definition T (A : Type) : Type := (list Event * Outcome A)%type.

Definition andThen {A B : Type} (m : T A) (k : A -> T B) : T B :=
  match m with
  | (tr, Ok a) => let '(tr', r) := k a in (tr ++ tr', r)
  | (tr, Throw e) => (tr, Throw e)
  end.

Definition tryCatch {A : Type} (body : T A) (handler : Error -> T A) : T A :=
  match body with
  | (tr, Ok a) => (tr, Ok a)
  | (tr, Throw e) => let '(tr', r) := handler e in (tr ++ tr', r)
  end.

Definition say (i : Interaction) (msg : string) : T unit :=
  ([Reply msg], reply i msg).

(** The predicate given to [channels.cache.find]. *)
Definition wanted (channelId : string) (c : CachedChannel) : bool :=
  String.eqb (Guild.channelId (cc_channel c)) channelId
  && isGuildVoice (type (cc_channel c)).

(** [handleJoinChannelCommand]. [joinChannel] is started and not awaited:
    it cannot make the [try] block fail, a reply can. *)
Definition handleJoinChannelCommand (i : Interaction) : T unit :=
  match channelOption i with
  | Some (String a s) =>
      match guildChannels i with
      | None => ([], Ok tt)
      | Some cache =>
          match List.find (wanted (String a s)) cache with
          | None => say i "Voice channel not found!"
          | Some voiceChannel =>
              tryCatch
                (andThen ([JoinChannel (cc_channel voiceChannel)], Ok tt)
                   (fun _ =>
                      say i ("Joined voice channel: " ++ name voiceChannel)))
                (fun error =>
                   andThen ([ConsoleError error], Ok tt)
                     (fun _ => say i "Failed to join the voice channel."))
          end
      end
  | _ => say i "Please provide a voice channel to join."
  end.

(** [handleLeaveChannelCommand]. [connection] is [None] when the guild has
    no connection, and otherwise tells how [connection.destroy()] ends. *)
Definition handleLeaveChannelCommand (connection : option (Outcome unit))
    (i : Interaction) : T unit :=
  match connection with
  | None => say i "Not currently in a voice channel."
  | Some destroyed =>
      tryCatch
        (andThen ([Destroy], destroyed)
           (fun _ => say i "Left the voice channel."))
        (fun error =>
           andThen ([ConsoleError error], Ok tt)
             (fun _ => say i "Failed to leave the voice channel."))
  end.

(** A request to join the lounge of [smallGuild], in which the replies
    that [fails] selects raise. *)
Definition askLounge (fails : string -> bool) : Interaction :=
  mkInteraction (Some "lounge"%string)
                (Some [mkCached botRoom "Bots"; mkCached lounge "Lounge"])
                (fun msg => if fails msg
                            then Throw "Unknown interaction"%string
                            else Ok tt).

End Commands.

(** * Properties *)

(** ** Buffers *)

Lemma blen_nonneg (b : Buffer) : 0 <= blen b.
Proof. unfold blen. lia. Qed.

Lemma blen_app (a b : Buffer) : blen (a ++ b) = blen a + blen b.
Proof. unfold blen. rewrite length_app. lia. Qed.

Lemma total_size_nonneg (l : list Buffer) : 0 <= total_size l.
Proof.
  induction l as [|b l IH]; simpl; [lia|].
  pose proof (blen_nonneg b). lia.
Qed.

Lemma total_size_app (l1 l2 : list Buffer) :
  total_size (l1 ++ l2) = total_size l1 + total_size l2.
Proof. induction l1 as [|b l1 IH]; simpl; lia. Qed.

Lemma total_size_concat (l : list Buffer) : total_size l = blen (concat l).
Proof.
  induction l as [|b l IH]; simpl; [reflexivity|].
  rewrite blen_app. lia.
Qed.

(** With the exact total, [Buffer.concat] neither cuts nor pads. *)
Lemma Buffer_concat_exact (l : list Buffer) :
  Buffer_concat l (total_size l) = concat l.
Proof.
  unfold Buffer_concat. rewrite total_size_concat. unfold blen.
  rewrite Nat2Z.id, firstn_all, Nat.sub_diag. simpl. apply app_nil_r.
Qed.

(** ** The accumulator *)

Section MonitorFacts.
Import Monitor.

Lemma shouldFlush_spec (d n : Z) :
  shouldFlush d n = true <-> d > maxSilenceTime \/ n >= maxUtteranceBytes.
Proof.
  unfold shouldFlush. rewrite orb_true_iff.
  rewrite Z.gtb_ltb, Z.ltb_lt, Z.geb_leb, Z.leb_le. lia.
Qed.

Lemma shouldFlush_false (d n : Z) :
  d <= maxSilenceTime -> n < maxUtteranceBytes -> shouldFlush d n = false.
Proof.
  intros Hd Hn. destruct (shouldFlush d n) eqn:E; [|reflexivity].
  apply shouldFlush_spec in E. lia.
Qed.

Lemma consistent_init (now : Z) : consistent (init now).
Proof. reflexivity. Qed.

Lemma consistent_snoc (st : Accumulator) (c : Buffer) :
  consistent st ->
  totalLength st + blen c = total_size (buffers st ++ [c]).
Proof.
  unfold consistent. intros ->. rewrite total_size_app. simpl. lia.
Qed.

(** A flush hands over the chunks held and the one just received, and
    leaves the accumulator empty. *)
Lemma onBuffer_flush (st : Accumulator) (t : Z) (c : Buffer) :
  consistent st ->
  shouldFlush (t - lastChunkTime st) (totalLength st + blen c) = true ->
  onBuffer st t c = (init t, Some (concat (buffers st ++ [c]))).
Proof.
  intros Hc Hf. unfold onBuffer. rewrite Hf.
  rewrite (consistent_snoc _ _ Hc), Buffer_concat_exact. reflexivity.
Qed.

Lemma onBuffer_keep (st : Accumulator) (t : Z) (c : Buffer) :
  shouldFlush (t - lastChunkTime st) (totalLength st + blen c) = false ->
  onBuffer st t c
  = (mkAcc (buffers st ++ [c]) (totalLength st + blen c) t, None).
Proof. intros Hf. unfold onBuffer. rewrite Hf. reflexivity. Qed.

Lemma onBuffer_consistent (st : Accumulator) (t : Z) (c : Buffer) :
  consistent st -> consistent (fst (onBuffer st t c)).
Proof.
  intros Hc. unfold onBuffer.
  destruct (shouldFlush _ _); simpl; [reflexivity|].
  apply consistent_snoc, Hc.
Qed.

Lemma run_app (st : Accumulator) (l1 l2 : list Arrival) :
  run st (l1 ++ l2)
  = let '(st1, f1) := run st l1 in
    let '(st2, f2) := run st1 l2 in (st2, f1 ++ f2).
Proof.
  revert st. induction l1 as [|[t c] l1 IH]; intros st; simpl.
  - destruct (run st l2). reflexivity.
  - destruct (onBuffer st t c) as [st1 out]. rewrite IH.
    destruct (run st1 l1) as [st2 f1]. destruct (run st2 l2) as [st3 f2].
    destruct out; reflexivity.
Qed.

Lemma run_consistent (st : Accumulator) (l : list Arrival) :
  consistent st -> consistent (fst (run st l)).
Proof.
  revert st. induction l as [|[t c] l IH]; intros st Hc; simpl; [exact Hc|].
  pose proof (onBuffer_consistent st t c Hc) as H1.
  destruct (onBuffer st t c) as [st1 out]. simpl in H1.
  specialize (IH st1 H1). destruct (run st1 l) as [st2 outs]. exact IH.
Qed.

(** The flushed buffers cut the sequence of chunks into consecutive groups;
    what follows the last group is what the accumulator holds. *)
Lemma run_partition (st st' : Accumulator) (l : list Arrival)
    (fl : list Buffer) :
  consistent st ->
  run st l = (st', fl) ->
  exists gs : list (list Buffer),
    buffers st ++ chunks l = concat gs ++ buffers st'
    /\ fl = map (@concat Byte.byte) gs
    /\ Forall (fun g => g <> []) gs.
Proof.
  revert st st' fl. induction l as [|[t c] l IH]; intros st st' fl Hc Hrun.
  - simpl in Hrun. injection Hrun as <- <-. exists []. simpl.
    rewrite app_nil_r. auto.
  - simpl in Hrun.
    destruct (shouldFlush (t - lastChunkTime st) (totalLength st + blen c))
      eqn:Hf.
    + rewrite (onBuffer_flush _ _ _ Hc Hf) in Hrun.
      destruct (run (init t) l) as [st2 outs] eqn:Hr.
      injection Hrun as <- <-.
      destruct (IH _ _ _ (consistent_init t) Hr) as (gs & Hg & Hfl & Hne).
      exists ((buffers st ++ [c]) :: gs). simpl in Hg. simpl.
      rewrite <- app_assoc. simpl. rewrite Hg, Hfl. repeat split.
      * rewrite <- app_assoc. reflexivity.
      * constructor; [|exact Hne]. destruct (buffers st); discriminate.
    + rewrite (onBuffer_keep _ _ _ Hf) in Hrun.
      destruct (run _ l) as [st2 outs] eqn:Hr.
      injection Hrun as <- <-.
      assert (Hc1 : consistent
                (mkAcc (buffers st ++ [c]) (totalLength st + blen c) t))
        by (apply consistent_snoc, Hc).
      destruct (IH _ _ _ Hc1 Hr) as (gs & Hg & Hfl & Hne).
      exists gs. simpl in Hg. rewrite <- app_assoc in Hg. simpl in Hg.
      simpl. auto.
Qed.

Lemma last_cons_default (x d : Z) (l : list Z) :
  List.last (x :: l) d = List.last l x.
Proof.
  revert x d. induction l as [|y l IH]; intros x d; [reflexivity|].
  change (List.last (x :: y :: l) d) with (List.last (y :: l) d).
  rewrite !IH. reflexivity.
Qed.

(** While the gaps stay within the limit and the size below the cap,
    nothing is flushed and every chunk is kept. *)
Lemma run_quiet (st : Accumulator) (l : list Arrival) :
  gaps_within (lastChunkTime st) l ->
  totalLength st + total_size (chunks l) < maxUtteranceBytes ->
  snd (run st l) = []
  /\ buffers (fst (run st l)) = buffers st ++ chunks l
  /\ totalLength (fst (run st l)) = totalLength st + total_size (chunks l)
  /\ lastChunkTime (fst (run st l)) = List.last (map fst l) (lastChunkTime st).
Proof.
  revert st. induction l as [|[t c] l IH]; intros st Hg Hs.
  - simpl. rewrite app_nil_r. repeat split; lia.
  - simpl in Hg, Hs. destruct Hg as [Hgap Hg].
    pose proof (total_size_nonneg (chunks l)) as Hpos.
    assert (Hf : shouldFlush (t - lastChunkTime st) (totalLength st + blen c)
                 = false) by (apply shouldFlush_false; lia).
    cbn [run]. rewrite (onBuffer_keep _ _ _ Hf).
    specialize (IH (mkAcc (buffers st ++ [c]) (totalLength st + blen c) t)).
    cbn [buffers totalLength lastChunkTime] in IH.
    destruct IH as (H1 & H2 & H3 & H4); [exact Hg | lia |].
    destruct (run _ l) as [st2 outs]. simpl in *.
    repeat split; [exact H1 | | lia |].
    + rewrite H2, <- app_assoc. reflexivity.
    + rewrite H4. symmetry. apply last_cons_default.
Qed.

(** What holds of the accumulator whenever the closure has returned. *)
Lemma onBuffer_below_cap (st : Accumulator) (t : Z) (c : Buffer) :
  consistent st ->
  totalLength (fst (onBuffer st t c)) < maxUtteranceBytes.
Proof.
  intros Hc. unfold onBuffer.
  destruct (shouldFlush _ _) eqn:Hf; simpl; [reflexivity|].
  destruct (Z.ltb_spec (totalLength st + blen c) maxUtteranceBytes) as [H|H];
    [exact H|].
  assert (shouldFlush (t - lastChunkTime st) (totalLength st + blen c) = true)
    by (apply shouldFlush_spec; lia).
  congruence.
Qed.

Lemma run_below_cap (st : Accumulator) (l : list Arrival) :
  consistent st ->
  totalLength st < maxUtteranceBytes ->
  totalLength (fst (run st l)) < maxUtteranceBytes.
Proof.
  revert st. induction l as [|[t c] l IH]; intros st Hc Hb; [exact Hb|].
  simpl.
  pose proof (onBuffer_consistent st t c Hc) as H1.
  pose proof (onBuffer_below_cap st t c Hc) as H2.
  destruct (onBuffer st t c) as [st1 out]. simpl in H1, H2.
  specialize (IH st1 H1 H2). destruct (run st1 l). exact IH.
Qed.

End MonitorFacts.

(** ** Size cap and silence gap *)

Section MonitorClaims.
Import Monitor.

Lemma blen_zeros (n : Z) : 0 <= n -> blen (zeros n) = n.
Proof. intros Hn. unfold blen, zeros. rewrite repeat_length. lia. Qed.

(** C1. When the size accumulated since the previous flush reaches
    1,000,000 bytes with a chunk, the closure flushes at that very chunk;
    the flushed buffer is the byte-wise concatenation, in arrival order, of
    the chunks received since the previous flush (those the accumulator
    held, which are the chunks that follow the last flushed group, and the
    crossing chunk), and the accumulator is left empty. *)
Theorem flush_at_size_cap (start t : Z) (l : list Arrival) (c : Buffer)
    (st : Accumulator) (fl : list Buffer) :
  run (init start) l = (st, fl) ->
  total_size (buffers st) + blen c >= 1000000 ->
  run (init start) (l ++ [(t, c)]) = (init t, fl ++ [concat (buffers st) ++ c])
  /\ exists gs : list (list Buffer),
       chunks l = concat gs ++ buffers st
       /\ fl = map (@concat Byte.byte) gs.
Proof.
  intros Hrun Hsize.
  pose proof (run_consistent (init start) l (consistent_init start)) as Hc.
  rewrite Hrun in Hc. simpl in Hc. split.
  - rewrite run_app, Hrun. cbn [run].
    rewrite onBuffer_flush; [|exact Hc|].
    + rewrite concat_app. simpl. rewrite app_nil_r. reflexivity.
    + apply shouldFlush_spec. right. rewrite Hc.
      unfold maxUtteranceBytes. lia.
  - destruct (run_partition _ _ _ _ (consistent_init start) Hrun)
      as (gs & Hg & Hfl & _).
    exists gs. split; [exact Hg | exact Hfl].
Qed.

Lemma flush_at_size_cap_witness :
  run (init 0) ([] ++ [(7, zeros 1000000)])
  = (init 7, [] ++ [concat (buffers (init 0)) ++ zeros 1000000])
  /\ exists gs : list (list Buffer),
       chunks [] = concat gs ++ buffers (init 0)
       /\ [] = map (@concat Byte.byte) gs.
Proof.
  apply (flush_at_size_cap 0 7 [] (zeros 1000000) (init 0) []).
  - reflexivity.
  - rewrite blen_zeros by lia. simpl. lia.
Defined.

(** C2, as the code has it. [lastChunkTime] starts at the clock reading
    taken when the monitor is set up, so the gap of the first chunk is
    counted from the set-up. Over deliveries whose gaps, that first one
    included, are all at most 500 ms and whose total size is below
    1,000,000 bytes, nothing is flushed and every chunk stays in the
    accumulator; and at any delivery a flush happens exactly when the gap
    exceeds 500 ms or the accumulated size, the delivered chunk included,
    is at least 1,000,000 bytes. *)
Theorem no_flush_within_limits (start t : Z) (l : list Arrival) (c : Buffer) :
  (gaps_within start l ->
   total_size (chunks l) < 1000000 ->
   snd (run (init start) l) = []
   /\ buffers (fst (run (init start) l)) = chunks l)
  /\ (snd (onBuffer (fst (run (init start) l)) t c) <> None
      <-> t - lastChunkTime (fst (run (init start) l)) > 500
          \/ total_size (buffers (fst (run (init start) l))) + blen c
             >= 1000000).
Proof.
  split.
  - intros Hg Hs.
    destruct (run_quiet (init start) l) as (H1 & H2 & _); auto.
  - pose proof (run_consistent (init start) l (consistent_init start)) as Hc.
    set (st := fst (run (init start) l)) in *.
    unfold consistent in Hc. rewrite <- Hc.
    change 500 with maxSilenceTime. change 1000000 with maxUtteranceBytes.
    rewrite <- shouldFlush_spec. unfold onBuffer.
    destruct (shouldFlush _ _); simpl; split; congruence.
Qed.

Lemma no_flush_within_limits_witness :
  snd (run (init 0) [(100, zeros 10); (600, zeros 20)]) = []
  /\ buffers (fst (run (init 0) [(100, zeros 10); (600, zeros 20)]))
     = chunks [(100, zeros 10); (600, zeros 20)].
Proof.
  apply (no_flush_within_limits 0 0 [(100, zeros 10); (600, zeros 20)] []).
  - simpl. unfold maxSilenceTime. lia.
  - vm_compute. reflexivity.
Defined.

(** C2 as stated fails: a single chunk of 10 bytes delivered 600 ms after
    the set-up has no gap to an earlier chunk and is far below the cap,
    yet it is flushed at once, on its own. *)
Lemma late_first_chunk_is_flushed :
  inter_arrival_within [(600, zeros 10)]
  /\ total_size (chunks [(600, zeros 10)]) < 1000000
  /\ snd (run (init 0) [(600, zeros 10)]) = [zeros 10].
Proof. split; [exact I|]. split; [vm_compute|]; reflexivity. Qed.

(** After A, B and C the accumulator holds 900000 bytes. *)
Lemma scenario_three (start : Z) (A B C : Buffer) :
  blen A = 300000 -> blen B = 300000 -> blen C = 300000 ->
  run (init start) [(start + 50, A); (start + 100, B); (start + 150, C)]
  = (mkAcc [A; B; C] 900000 (start + 150), []).
Proof.
  intros HA HB HC.
  destruct (run_quiet (init start)
              [(start + 50, A); (start + 100, B); (start + 150, C)])
    as (H1 & H2 & H3 & H4).
  - simpl. unfold maxSilenceTime. lia.
  - simpl. unfold maxUtteranceBytes. lia.
  - destruct (run (init start) _) as [[b n tm] fl].
    simpl in H1, H2, H3, H4. subst. f_equal. f_equal. lia.
Qed.

(** D brings the total to 1050000 bytes and is flushed with them. *)
Lemma scenario_flush (start : Z) (A B C D : Buffer) :
  blen A = 300000 -> blen B = 300000 -> blen C = 300000 -> blen D = 150000 ->
  run (init start) (scenario start A B C D)
  = (init (start + 200), [A ++ B ++ C ++ D]).
Proof.
  intros HA HB HC HD.
  change (scenario start A B C D)
    with ([(start + 50, A); (start + 100, B); (start + 150, C)]
            ++ [(start + 200, D)]).
  rewrite run_app, scenario_three by assumption. cbn [run].
  rewrite onBuffer_flush.
  - simpl. rewrite app_nil_r. reflexivity.
  - unfold consistent. simpl. lia.
  - apply shouldFlush_spec. right. simpl. unfold maxUtteranceBytes. lia.
Qed.

(** The first three chunks, the first one within 500 ms of the set-up. *)
Lemma spaced_three (start first : Z) (A B C : Buffer) :
  blen A = 300000 -> blen B = 300000 -> blen C = 300000 ->
  first - start <= 500 ->
  run (init start) [(first, A); (first + 50, B); (first + 100, C)]
  = (mkAcc [A; B; C] 900000 (first + 100), []).
Proof.
  intros HA HB HC Hf.
  destruct (run_quiet (init start)
              [(first, A); (first + 50, B); (first + 100, C)])
    as (H1 & H2 & H3 & H4).
  - simpl. unfold maxSilenceTime. lia.
  - simpl. unfold maxUtteranceBytes. lia.
  - destruct (run (init start) _) as [[b n tm] fl].
    simpl in H1, H2, H3, H4. subst. f_equal. f_equal. lia.
Qed.

(** With the first chunk later than that, it is flushed alone and the
    other three are kept. *)
Lemma spaced_late (start first : Z) (A B C D : Buffer) :
  blen A = 300000 -> blen B = 300000 -> blen C = 300000 -> blen D = 150000 ->
  first - start > 500 ->
  run (init start) (spaced first A B C D)
  = (mkAcc [B; C; D] 750000 (first + 150), [A]).
Proof.
  intros HA HB HC HD Hf.
  assert (H0 : run (init start) [(first, A)] = (init first, [A])).
  { cbn [run]. rewrite onBuffer_flush;
      [|apply consistent_init
       |apply shouldFlush_spec; left; simpl; unfold maxSilenceTime; lia].
    simpl. rewrite app_nil_r. reflexivity. }
  change (spaced first A B C D)
    with ([(first, A)]
            ++ [(first + 50, B); (first + 100, C); (first + 150, D)]).
  rewrite run_app, H0.
  destruct (run_quiet (init first)
              [(first + 50, B); (first + 100, C); (first + 150, D)])
    as (H1 & H2 & H3 & H4).
  - simpl. unfold maxSilenceTime. lia.
  - simpl. unfold maxUtteranceBytes. lia.
  - destruct (run (init first) _) as [[b n tm] fl].
    simpl in H1, H2, H3, H4. subst. f_equal. f_equal. lia.
Qed.

(** C3, as the code has it. The four sizes add up to 1050000 bytes, not
    950000. When the first chunk arrives at most 500 ms after the set-up
    and the others follow 50 ms apart, the total reaches the cap of
    1,000,000 bytes with D, so the closure flushes exactly one utterance
    A+B+C+D (1050000 bytes) at D: the size test is the one that holds
    there, the silence test does not, and the accumulator is then empty,
    so the silence that follows finds nothing to flush (and delivers
    nothing to the closure). When the first chunk arrives more than
    500 ms after the set-up, it is flushed alone on arrival and B, C and D
    (750000 bytes) are kept unflushed. *)
Theorem spaced_chunks_flush_by_size (start first : Z) (A B C D : Buffer) :
  blen A = 300000 -> blen B = 300000 -> blen C = 300000 -> blen D = 150000 ->
  (first - start <= 500 ->
   run (init start) (spaced first A B C D)
   = (init (first + 150), [A ++ B ++ C ++ D])
   /\ blen (A ++ B ++ C ++ D) = 1050000
   /\ (first + 150
       - lastChunkTime
           (fst (run (init start)
                     [(first, A); (first + 50, B); (first + 100, C)]))
       >? maxSilenceTime) = false
   /\ (totalLength
         (fst (run (init start)
                   [(first, A); (first + 50, B); (first + 100, C)]))
       + blen D >=? maxUtteranceBytes) = true)
  /\ (first - start > 500 ->
      run (init start) (spaced first A B C D)
      = (mkAcc [B; C; D] 750000 (first + 150), [A])).
Proof.
  intros HA HB HC HD. split.
  - intros Hf. rewrite spaced_three by assumption. split; [|split].
    + change (spaced first A B C D)
        with ([(first, A); (first + 50, B); (first + 100, C)]
                ++ [(first + 150, D)]).
      rewrite run_app, spaced_three by assumption. cbn [run].
      rewrite onBuffer_flush.
      * simpl. rewrite app_nil_r. reflexivity.
      * unfold consistent. simpl. lia.
      * apply shouldFlush_spec. right. simpl. unfold maxUtteranceBytes. lia.
    + rewrite !blen_app. lia.
    + simpl. unfold maxSilenceTime, maxUtteranceBytes. lia.
  - intros Hf. apply spaced_late; assumption.
Qed.

Lemma spaced_chunks_flush_by_size_witness :
  (run (init 0)
       (spaced 300 (zeros 300000) (zeros 300000) (zeros 300000)
               (zeros 150000))
   = (init (300 + 150),
      [zeros 300000 ++ zeros 300000 ++ zeros 300000 ++ zeros 150000]))
  /\ run (init 0)
         (spaced 600 (zeros 300000) (zeros 300000) (zeros 300000)
                 (zeros 150000))
     = (mkAcc [zeros 300000; zeros 300000; zeros 150000] 750000 (600 + 150),
        [zeros 300000]).
Proof.
  split.
  - destruct (spaced_chunks_flush_by_size 0 300 (zeros 300000)
                (zeros 300000) (zeros 300000) (zeros 150000))
      as [H _]; try (rewrite blen_zeros; lia).
    destruct H as [H _]; [lia | exact H].
  - destruct (spaced_chunks_flush_by_size 0 600 (zeros 300000)
                (zeros 300000) (zeros 300000) (zeros 150000))
      as [_ H]; try (rewrite blen_zeros; lia).
    apply H. lia.
Defined.

(** C3 as stated fails: the one utterance flushed on the scenario has
    1050000 bytes, not 950000, and it is flushed when D arrives, 50 ms
    after C, where the silence test is false. *)
Lemma scenario_not_by_silence :
  exists u : Buffer,
    snd (run (init 0)
             (scenario 0 (zeros 300000) (zeros 300000) (zeros 300000)
                       (zeros 150000))) = [u]
    /\ blen u <> 950000
    /\ (200 - lastChunkTime
                (fst (run (init 0)
                          [(0 + 50, zeros 300000); (0 + 100, zeros 300000);
                           (0 + 150, zeros 300000)]))
         >? maxSilenceTime) = false.
Proof.
  exists (zeros 300000 ++ zeros 300000 ++ zeros 300000 ++ zeros 150000).
  rewrite scenario_flush by (rewrite blen_zeros; lia).
  rewrite scenario_three by (rewrite blen_zeros; lia).
  split; [reflexivity|]. split; [|reflexivity].
  rewrite !blen_app, !blen_zeros by lia. lia.
Qed.

End MonitorClaims.

(** ** The pipeline *)

Section PipelineFacts.
Import Pipeline.

Lemma handled_split (w : World) (l pre post : list Event) (ev : Event)
    (e : Error) :
  handled w l ->
  l = pre ++ ev :: post ->
  raised w ev = Some e ->
  post = [Console_error e].
Proof.
  revert l. induction pre as [|x pre IH]; intros l Hl -> Hev; simpl in Hl.
  - rewrite Hev in Hl. exact Hl.
  - destruct (raised w x) as [e'|] eqn:Hx.
    + destruct pre as [|y pre]; simpl in Hl.
      * injection Hl as -> ->. discriminate Hev.
      * injection Hl as _ Hl. destruct pre; discriminate Hl.
    + eapply IH; [exact Hl | reflexivity | exact Hev].
Qed.

Ltac next_call :=
  match goal with
  | |- context [match ?o with Ok _ => _ | Throw _ => _ end] =>
      lazymatch o with
      | context [match _ with _ => _ end] => fail
      | _ => destruct o eqn:?; cbn -[In]
      end
  end.

Ltac pipeline_cases :=
  unfold trace, process, try_catch, bind, call, ret;
  repeat match goal with
  | |- context [if isCommand ?t then _ else _] =>
      destruct (isCommand t) eqn:?; cbn
  | |- context [match js_or ?a ?b with _ => _ end] =>
      destruct (js_or a b) as [[|? ?]|] eqn:?; cbn
  | |- context [match ?o with Some _ => _ | None => _ end] =>
      is_var o; destruct o; cbn
  | _ => next_call
  end.

(** The closure never passes an error on to its caller. *)
Lemma process_returns (w : World) (sp : Speaker) (b : Buffer) :
  snd (process w sp b) = Ok tt.
Proof. pipeline_cases; reflexivity. Qed.

Lemma trace_handled (w : World) (sp : Speaker) (b : Buffer) :
  handled w (trace w sp b).
Proof.
  pipeline_cases; cbn;
    repeat match goal with
    | H : ?f = _ |- context [error_of ?f] => rewrite H; cbn
    end; auto.
Qed.

(** A run starts with the transcription of the flushed buffer and calls
    the transcription service only then. *)
Lemma trace_one_utterance (w : World) (sp : Speaker) (b : Buffer) :
  exists rest : list Event,
    trace w sp b = Call_transcribe b :: rest
    /\ Forall (fun ev => forall u, ev <> Call_transcribe u) rest.
Proof.
  pipeline_cases; eexists; (split; [reflexivity|]);
    repeat constructor; discriminate.
Qed.

Lemma prefix_isCommand (text : string) :
  String.prefix "/" text = true -> isCommand (Some text) = true.
Proof.
  intros H. unfold isCommand. rewrite H.
  destruct text; [discriminate H | reflexivity].
Qed.

(** C7. Whatever the collaborators do, the closure returns normally: no
    error reaches its caller. A call that raises (transcription, the
    lookup of the bot name, an upsert, state composition, message handling
    or speech synthesis) is followed in the trace by the report of that
    error on the console and by nothing else: no later step runs. *)
Theorem errors_caught_at_boundary (w : World) (sp : Speaker) (b : Buffer)
    (pre post : list Event) (ev : Event) (e : Error) :
  snd (process w sp b) = Ok tt
  /\ (trace w sp b = pre ++ ev :: post ->
      raised w ev = Some e ->
      post = [Console_error e]).
Proof.
  split; [apply process_returns|].
  intros Htrace Hev.
  exact (handled_split w _ pre post ev e (trace_handled w sp b) Htrace Hev).
Qed.

Lemma errors_caught_at_boundary_witness :
  snd (process deaf lily []) = Ok tt
  /\ [Console_error "transcription failed"%string]
     = [Console_error "transcription failed"%string].
Proof.
  destruct (errors_caught_at_boundary deaf lily [] [] 
              [Console_error "transcription failed"%string]
              (Call_transcribe []) "transcription failed"%string)
    as [Hret Hpost].
  split; [exact Hret|].
  apply Hpost; reflexivity.
Defined.

(** C5, as the code has it. When the transcribed text begins with "/", the
    run makes no call to message handling, speech synthesis or playback,
    and returns normally. The prefix test comes after state composition
    (line 122): when no earlier call raises, the run is exactly the
    transcription, the lookup of the bot name, the five upserts and the
    state composition, and nothing is reported on the console. *)
Theorem command_aborts_after_setup (w : World) (sp : Speaker) (b : Buffer)
    (text : string) :
  transcribe w b = Ok (Some text) ->
  String.prefix "/" text = true ->
  snd (process w sp b) = Ok tt
  /\ (forall ev, In ev (trace w sp b) -> isResponse ev = false)
  /\ ((forall ev, In ev (trace w sp b) -> raised w ev = None) ->
      exists botName : string,
        trace w sp b
        = [Call_transcribe b;
           Call_fetchBotName (DISCORD_API_TOKEN w);
           Call_ensureUserExists (getUuid w (DISCORD_APPLICATION_ID w)) botName;
           Call_ensureUserExists (getUuid w (user_id sp)) (userName sp);
           Call_ensureRoomExists (getUuid w (channelId sp));
           Call_ensureParticipantInRoom (getUuid w (user_id sp))
                                        (getUuid w (channelId sp));
           Call_ensureParticipantInRoom (getUuid w (DISCORD_APPLICATION_ID w))
                                        (getUuid w (channelId sp));
           Call_composeState (Some text) (getUuid w (user_id sp))
                             (getUuid w (channelId sp)) botName]).
Proof.
  intros Htr Hpre. apply prefix_isCommand in Hpre.
  split; [apply process_returns|].
  unfold trace, process, try_catch, bind, call, ret.
  rewrite Htr. cbn -[In]. rewrite Hpre.
  split.
  - repeat next_call; intros ev Hin; cbn in Hin;
      repeat (destruct Hin as [<-|Hin]; [reflexivity|]); destruct Hin.
  - repeat next_call; intros Hall;
      try (eexists; reflexivity);
      exfalso; apply List.Forall_forall in Hall;
      repeat match goal with
      | H : List.Forall _ (_ :: _) |- _ =>
          apply List.Forall_cons_iff in H; destruct H as [? H]
      end;
      cbn in *;
      repeat match goal with
      | H1 : ?f = Throw _, H2 : error_of ?f = None |- _ =>
          rewrite H1 in H2; discriminate H2
      end.
Qed.

Lemma command_aborts_after_setup_witness :
  snd (process (calm (Some "/help"%string)) lily []) = Ok tt
  /\ (forall ev, In ev (trace (calm (Some "/help"%string)) lily [])
                 -> isResponse ev = false).
Proof.
  destruct (command_aborts_after_setup (calm (Some "/help"%string)) lily []
              "/help"%string) as (H1 & H2 & _).
  - reflexivity.
  - reflexivity.
  - split; [exact H1 | exact H2].
Defined.

(** C5 as stated fails: on the text "/help" the agent upserts and the
    state composition are performed before the run stops. *)
Lemma command_still_runs_setup :
  trace (calm (Some "/help"%string)) lily []
  = [Call_transcribe [];
     Call_fetchBotName "token";
     Call_ensureUserExists "app" "Ben";
     Call_ensureUserExists "42" "Lily";
     Call_ensureRoomExists "general";
     Call_ensureParticipantInRoom "42" "general";
     Call_ensureParticipantInRoom "app" "general";
     Call_composeState (Some "/help"%string) "42" "general" "Ben"]
  /\ exists ev, In ev (trace (calm (Some "/help"%string)) lily [])
                /\ isAgentSetup ev = true.
Proof.
  split; [reflexivity|].
  exists (Call_ensureUserExists "app" "Ben"). split; [|reflexivity].
  right. right. left. reflexivity.
Qed.

End PipelineFacts.

(** ** Deliveries interleaved with suspended pipelines *)

Section LoopFacts.
Import Monitor Pipeline Loop.

(** The collaborators and the speaker are the same throughout a run of the
    event loop. *)
Variable w : World.
Variable sp : Speaker.
Lemma utterances_silent (l : list Event) : silent l -> utterances l = [].
Proof.
  induction 1 as [|ev l Hev _ IH]; [reflexivity|].
  destruct ev; try exact IH. now destruct (Hev inputBuffer).
Qed.

Lemma utterances_snoc (l : list Event) (ev : Event) :
  utterances (l ++ [ev]) = utterances l ++ utterances [ev].
Proof. unfold utterances. apply omap_app. Qed.

Lemma delivered_chunks (ks : list Tick) : delivered ks = chunks (deliveries ks).
Proof.
  induction ks as [|[t c|i] ks IH]; simpl; [reflexivity| |exact IH].
  unfold delivered, deliveries, chunks in *. simpl. now rewrite IH.
Qed.

(** A resumption leaves the accumulator alone and hands no utterance over;
    a delivery does what the closure does. *)
Lemma step_run (s : System) (k : Tick) :
  Forall silent (tasks s) ->
  Forall silent (tasks (step w sp s k))
  /\ (acc (step w sp s k), utterances (log (step w sp s k)))
     = (fst (run (acc s) (deliveries [k])),
        utterances (log s) ++ snd (run (acc s) (deliveries [k]))).
Proof.
  intros Hq. destruct k as [t c|i]; simpl.
  - destruct (onBuffer (acc s) t c) as [a [u|]]; simpl.
    + destruct (trace_one_utterance w sp u) as (rest & -> & Hrest). simpl.
      split.
      { apply Forall_app. split; [exact Hq|]. repeat constructor. exact Hrest. }
      now rewrite utterances_snoc.
    + split; [exact Hq|]. now rewrite app_nil_r.
  - rewrite app_nil_r.
    destruct (tasks s !! i) as [[|ev rest]|] eqn:Hi; simpl; auto.
    pose proof (Forall_lookup_1 _ _ _ _ Hq Hi) as Hev.
    apply Forall_cons in Hev. destruct Hev as [Hev Hrest].
    split; [apply Forall_insert; assumption|].
    rewrite utterances_snoc.
    rewrite (utterances_silent [ev]) by (repeat constructor; exact Hev).
    now rewrite app_nil_r.
Qed.

Lemma exec_run (ks : list Tick) (s : System) :
  Forall silent (tasks s) ->
  Forall silent (tasks (exec w sp s ks))
  /\ (acc (exec w sp s ks), utterances (log (exec w sp s ks)))
     = (fst (run (acc s) (deliveries ks)),
        utterances (log s) ++ snd (run (acc s) (deliveries ks))).
Proof.
  revert s. induction ks as [|k ks IH]; intros s Hq.
  - simpl. now rewrite app_nil_r.
  - change (exec w sp s (k :: ks)) with (exec w sp (step w sp s k) ks).
    destruct (step_run s k Hq) as [Hq1 Hs].
    destruct (IH _ Hq1) as [Hq2 Hrun]. split; [exact Hq2|].
    rewrite Hrun.
    assert (Hd : deliveries (k :: ks) = deliveries [k] ++ deliveries ks)
      by apply (omap_app _ [k] ks).
    rewrite Hd, run_app. clear Hd.
    set (d1 := deliveries [k]) in *.
    destruct (run (acc s) d1) as [st1 f1].
    injection Hs as Ha Hu. rewrite Ha, Hu.
    destruct (run st1 (deliveries ks)) as [st2 f2]. simpl.
    now rewrite app_assoc.
Qed.

(** From any state of the loop, the utterances handed over later cut what
    the accumulator holds, followed by the chunks delivered later, into
    consecutive non-empty groups. *)
Lemma exec_partition (ks : list Tick) (s : System) :
  consistent (acc s) ->
  Forall silent (tasks s) ->
  exists gs : list (list Buffer),
    buffers (acc s) ++ delivered ks
    = concat gs ++ buffers (acc (exec w sp s ks))
    /\ utterances (log (exec w sp s ks))
       = utterances (log s) ++ map (@concat Byte.byte) gs
    /\ Forall (fun g => g <> []) gs.
Proof.
  intros Hc Hq. destruct (exec_run ks s Hq) as [_ Hrun].
  destruct (run (acc s) (deliveries ks)) as [st fl] eqn:Hr.
  simpl in Hrun. injection Hrun as Ha Hu.
  destruct (run_partition _ _ _ _ Hc Hr) as (gs & Hg & Hfl & Hne).
  exists gs. rewrite delivered_chunks, Ha, Hu, Hfl. auto.
Qed.

(** C10, as the code has it. A flush empties the accumulator in the same
    synchronous stretch that takes the buffers out, and a pipeline
    suspended on an [await] never touches the accumulator. So under every
    schedule [ks] of deliveries and resumptions the utterances handed to
    transcription cut the delivered chunks into consecutive non-empty
    groups, each chunk being in exactly one group or still held in the
    accumulator, which holds fewer than 1,000,000 bytes: none is lost,
    none is handed over twice. Whatever the loop does next ([ks']), the
    utterances already handed over stay as they are and the chunks held
    go, in order and ahead of the later chunks, into the next ones; it is
    only a later delivery that hands them over, the closure has no flush
    of its own for what is held. The result is the one the closure gives
    on the deliveries alone. *)
Theorem chunks_flushed_once_or_held (now : Z) (ks ks' : list Tick) :
  let s := exec w sp (start now) ks in
  let s' := exec w sp (start now) (ks ++ ks') in
  (acc s, utterances (log s)) = run (init now) (deliveries ks)
  /\ (exists gs : list (list Buffer),
        delivered ks = concat gs ++ buffers (acc s)
        /\ utterances (log s) = map (@concat Byte.byte) gs
        /\ Forall (fun g => g <> []) gs)
  /\ total_size (buffers (acc s)) < 1000000
  /\ (exists gs' : list (list Buffer),
        buffers (acc s) ++ delivered ks' = concat gs' ++ buffers (acc s')
        /\ utterances (log s')
           = utterances (log s) ++ map (@concat Byte.byte) gs'
        /\ Forall (fun g => g <> []) gs')
  /\ (delivered ks' = [] ->
      utterances (log s') = utterances (log s)
      /\ buffers (acc s') = buffers (acc s)).
Proof.
  intros s s'.
  assert (Hq0 : Forall silent (tasks (start now))) by constructor.
  destruct (exec_run ks (start now) Hq0) as [Hq Hrun]. fold s in Hq, Hrun.
  simpl in Hrun. rewrite <- surjective_pairing in Hrun.
  assert (Hc : consistent (acc s)).
  { apply (f_equal fst) in Hrun. simpl in Hrun. rewrite Hrun.
    apply run_consistent, consistent_init. }
  assert (Hs' : s' = exec w sp s ks').
  { unfold s', exec. rewrite fold_left_app. reflexivity. }
  split; [exact Hrun|]. split; [|split; [|split]].
  - exact (exec_partition ks (start now) (consistent_init now) Hq0).
  - rewrite <- Hc. apply (f_equal fst) in Hrun. simpl in Hrun. rewrite Hrun.
    apply (run_below_cap (init now) _ (consistent_init now)). reflexivity.
  - rewrite Hs'. exact (exec_partition ks' s Hc Hq).
  - intros Hnone. rewrite Hs'.
    destruct (exec_run ks' s Hq) as [_ Hrun'].
    assert (Hd : deliveries ks' = []).
    { pose proof (delivered_chunks ks') as Hdc. rewrite Hnone in Hdc.
      destruct (deliveries ks'); [reflexivity | discriminate Hdc]. }
    rewrite Hd in Hrun'. simpl in Hrun'. injection Hrun' as Ha Hu.
    rewrite Ha, Hu, app_nil_r. auto.
Qed.

(** C4, as the code has it. The closure has no test for an empty
    utterance. The chunk just delivered is always part of what is flushed,
    so a flush by silence finds zero bytes accumulated only when that chunk
    and all those held are empty; the flushed buffer is then empty, the
    accumulator is reset, and the empty buffer is passed to the
    transcription service. *)
Theorem empty_flush_is_transcribed (s : System) (now : Z) (chunk : Buffer) :
  consistent (acc s) ->
  now - lastChunkTime (acc s) > 500 ->
  total_size (buffers (acc s) ++ [chunk]) = 0 ->
  chunk = []
  /\ snd (onBuffer (acc s) now chunk) = Some []
  /\ acc (step w sp s (Deliver now chunk)) = init now
  /\ log (step w sp s (Deliver now chunk)) = log s ++ [Call_transcribe []].
Proof.
  intros Hc Hgap Hzero.
  assert (Hflush : onBuffer (acc s) now chunk = (init now, Some [])).
  { rewrite onBuffer_flush; [|exact Hc|].
    - f_equal. f_equal.
      pose proof (total_size_concat (buffers (acc s) ++ [chunk])) as Hlen.
      rewrite Hzero in Hlen. unfold blen in Hlen.
      destruct (concat _); [reflexivity | simpl in Hlen; lia].
    - apply shouldFlush_spec. left. unfold maxSilenceTime. lia. }
  split.
  - rewrite total_size_app in Hzero. simpl in Hzero.
    pose proof (total_size_nonneg (buffers (acc s))).
    pose proof (blen_nonneg chunk). unfold blen in *.
    destruct chunk; [reflexivity | simpl in *; lia].
  - simpl. rewrite Hflush. simpl.
    destruct (trace_one_utterance w sp []) as (rest & -> & _).
    auto.
Qed.

End LoopFacts.

Section LoopExamples.
Import Monitor Pipeline Loop.

Lemma empty_flush_is_transcribed_witness :
  @nil Byte.byte = []
  /\ snd (onBuffer (acc (start 0)) 600 []) = Some []
  /\ acc (step (calm None) lily (start 0) (Deliver 600 [])) = init 600
  /\ log (step (calm None) lily (start 0) (Deliver 600 []))
     = log (start 0) ++ [Call_transcribe []].
Proof.
  apply (empty_flush_is_transcribed (calm None) lily (start 0) 600 []).
  - reflexivity.
  - simpl. lia.
  - reflexivity.
Defined.

(** C4 as stated fails: an empty chunk delivered 600 ms after the set-up
    is flushed as an empty utterance and the transcription service is
    called on it. *)
Lemma empty_utterance_reaches_transcription :
  snd (onBuffer (init 0) 600 []) = Some []
  /\ utterances (log (step (calm None) lily (start 0) (Deliver 600 [])))
     = [[]].
Proof. split; reflexivity. Qed.

Lemma chunks_flushed_once_or_held_witness :
  utterances (log (exec (calm None) lily (start 0)
                        ([Deliver 100 (zeros 10)] ++ [Resume 0])))
  = utterances (log (exec (calm None) lily (start 0)
                          [Deliver 100 (zeros 10)]))
  /\ buffers (acc (exec (calm None) lily (start 0)
                        ([Deliver 100 (zeros 10)] ++ [Resume 0])))
     = buffers (acc (exec (calm None) lily (start 0)
                          [Deliver 100 (zeros 10)])).
Proof.
  destruct (chunks_flushed_once_or_held (calm None) lily 0
              [Deliver 100 (zeros 10)] [Resume 0]) as (_ & _ & _ & _ & H).
  apply H. reflexivity.
Defined.

(** C10 as stated fails: a chunk delivered 100 ms after the set-up is in
    no flushed utterance. It stays in the accumulator, and resuming
    pipelines does not hand it over. *)
Lemma held_chunk_is_in_no_utterance :
  delivered [Deliver 100 (zeros 10); Resume 0] = [zeros 10]
  /\ utterances (log (exec (calm None) lily (start 0)
                           [Deliver 100 (zeros 10); Resume 0])) = []
  /\ buffers (acc (exec (calm None) lily (start 0)
                        [Deliver 100 (zeros 10); Resume 0])) = [zeros 10].
Proof. repeat split; reflexivity. Qed.

End LoopExamples.

(** ** Choosing a channel *)

Section GuildFacts.
Import Guild.

Lemma consider_chosen_from (seen : list Channel) (chosen : option Channel)
    (c : Channel) :
  chosen_from seen chosen -> chosen_from (seen ++ [c]) (consider chosen c).
Proof.
  unfold consider. intros H.
  destruct (0 <? size c)%nat eqn:Hpos; simpl.
  - apply Nat.ltb_lt in Hpos. destruct chosen as [ch|]; simpl in *.
    + destruct H as (Hch & l1 & l2 & -> & H1 & H2).
      destruct (size ch <? size c)%nat eqn:Hlt; simpl.
      * apply Nat.ltb_lt in Hlt. split; [exact Hpos|].
        exists (l1 ++ ch :: l2), []. split; [reflexivity|].
        split; [|constructor].
        apply Forall_app. split.
        -- eapply Forall_impl; [exact H1|]. simpl. intros; lia.
        -- constructor; [exact Hlt|].
           eapply Forall_impl; [exact H2|]. simpl. intros; lia.
      * apply Nat.ltb_ge in Hlt. split; [exact Hch|].
        exists l1, (l2 ++ [c]). split; [now rewrite <- app_assoc|].
        split; [exact H1|]. apply Forall_app. split; [exact H2|].
        constructor; [exact Hlt | constructor].
    + split; [exact Hpos|]. exists seen, []. split; [reflexivity|].
      split; [|constructor].
      eapply Forall_impl; [exact H|]. simpl. intros; lia.
  - apply Nat.ltb_ge in Hpos. destruct chosen as [ch|]; simpl in *.
    + destruct H as (Hch & l1 & l2 & -> & H1 & H2). split; [exact Hch|].
      exists l1, (l2 ++ [c]). split; [now rewrite <- app_assoc|].
      split; [exact H1|]. apply Forall_app. split; [exact H2|].
      constructor; [lia | constructor].
    + apply Forall_app. split; [exact H|]. constructor; [lia | constructor].
Qed.

Lemma fold_consider_chosen_from (l : list Channel) :
  chosen_from l (fold_left consider l None).
Proof.
  induction l as [|c l IH] using rev_ind; [constructor|].
  rewrite fold_left_app. simpl. apply consider_chosen_from, IH.
Qed.

(** C9, as the code has it. [scanGuild] counts [members.size], bots
    included: among the channels of type GuildVoice it hands to
    [joinChannel] the first of those with the most members present, and
    it joins one exactly when some voice channel has at least one
    member. *)
Theorem scanGuild_picks_fullest (fetched : list (option Channel)) :
  chosen_from (voiceChannels fetched) (scanGuild fetched)
  /\ (is_Some (scanGuild fetched)
      <-> Exists (fun c => (1 <= size c)%nat) (voiceChannels fetched)).
Proof.
  pose proof (fold_consider_chosen_from (voiceChannels fetched)) as H.
  fold (scanGuild fetched) in H. split; [exact H|].
  destruct (scanGuild fetched) as [ch|]; simpl in H.
  - destruct H as (Hch & l1 & l2 & -> & _). split; [|eauto].
    intros _. apply Exists_app. right. constructor. lia.
  - split; [intros [? ?]; discriminate|].
    intros Hex. apply Exists_exists in Hex. destruct Hex as (c & Hin & Hc).
    rewrite Forall_forall in H. specialize (H c Hin). lia.
Qed.

(** C9 as stated fails: the room with two bots is chosen, although the
    lounge has more members that are not bots. *)
Lemma scanGuild_counts_bots :
  scanGuild smallGuild = Some botRoom
  /\ In lounge (voiceChannels smallGuild)
  /\ (nonBots botRoom < nonBots lounge)%nat.
Proof.
  split; [reflexivity|]. split; [right; left; reflexivity|].
  vm_compute. lia.
Qed.

End GuildFacts.

(** ** The registry *)

Section RegistryFacts.
Import Guild Registry.

(** C6, as the code has it. Let a first call of [monitorMember] register a
    user (a connection exists and the receive stream holds no unread data)
    and let a second call follow while the user is still connected. The
    registry then still has one entry for that user id and no further key.
    The second call changes nothing only when the receive stream holds
    unread data at that moment; otherwise it creates a second decoder,
    which replaces the first in the registry, and emits a second
    [userStream] event. *)
Theorem monitorMember_twice (v1 v2 : Voice) (member : GuildMember)
    (channel : Channel) (st : Manager) (c1 c2 : Connection) :
  getVoiceConnection v1 (guildId member) = Some c1 ->
  readableLength v1 c1 (id member) = 0%nat ->
  getVoiceConnection v2 (guildId member) = Some c2 ->
  let st1 := fst (monitorMember v1 member channel st) in
  let st2 := fst (monitorMember v2 member channel st1) in
  streams st1 !! id member = Some (decoders st)
  /\ dom (streams st2) = dom (streams st1)
  /\ is_Some (streams st2 !! id member)
  /\ ((0 < readableLength v2 c2 (id member))%nat -> st2 = st1)
  /\ (readableLength v2 c2 (id member) = 0%nat ->
      streams st2 !! id member = Some (S (decoders st))
      /\ decoders st2 = S (S (decoders st))
      /\ emitted st2
         = emitted st1 ++ [mkUserStream (id member) (displayName member)
                                        (channelId channel)
                                        (S (decoders st))]).
Proof.
  intros Hc1 Hr1 Hc2 st1 st2.
  assert (Hst1 : st1
    = mkManager (<[id member := decoders st]> (streams st))
                (<[id member := c1]> (connections st))
                (S (decoders st)) (players st)
                (emitted st ++ [mkUserStream (id member) (displayName member)
                                             (channelId channel)
                                             (decoders st)])
                (console st)).
  { unfold st1, monitorMember. rewrite Hc1, Hr1. reflexivity. }
  assert (Hl1 : streams st1 !! id member = Some (decoders st)).
  { rewrite Hst1. simpl. apply lookup_insert_eq. }
  split; [exact Hl1|].
  unfold st2, monitorMember. rewrite Hc2.
  destruct (0 <? readableLength v2 c2 (id member))%nat eqn:Hr2; simpl.
  - apply Nat.ltb_lt in Hr2.
    split; [reflexivity|]. split; [eauto|]. split; [reflexivity|]. lia.
  - apply Nat.ltb_ge in Hr2. split.
    + rewrite dom_insert_L. apply subseteq_union_1_L.
      apply singleton_subseteq_l, elem_of_dom. eauto.
    + split; [rewrite lookup_insert_eq; eauto|]. split; [lia|]. intros _.
      rewrite lookup_insert_eq. rewrite Hst1. simpl. auto.
Qed.

Lemma monitorMember_twice_witness :
  let st1 := fst (monitorMember (connected 0) lilyMember lounge empty) in
  let st2 := fst (monitorMember (connected 0) lilyMember lounge st1) in
  streams st1 !! id lilyMember = Some (decoders empty)
  /\ dom (streams st2) = dom (streams st1)
  /\ is_Some (streams st2 !! id lilyMember)
  /\ ((0 < readableLength (connected 0) 7%nat (id lilyMember))%nat -> st2 = st1)
  /\ (readableLength (connected 0) 7%nat (id lilyMember) = 0%nat ->
      streams st2 !! id lilyMember = Some (S (decoders empty))
      /\ decoders st2 = S (S (decoders empty))
      /\ emitted st2
         = emitted st1 ++ [mkUserStream (id lilyMember) (displayName lilyMember)
                                        (channelId lounge)
                                        (S (decoders empty))]).
Proof.
  apply (monitorMember_twice (connected 0) (connected 0) lilyMember lounge
           empty 7%nat 7%nat); reflexivity.
Defined.

(** C6 as stated fails: with no unread data on the receive stream, the
    second call is not a no-op. It creates a second decoder, registers it
    in place of the first and emits a second [userStream] event. *)
Lemma monitorMember_again_registers :
  let st1 := fst (monitorMember (connected 0) lilyMember lounge empty) in
  let st2 := fst (monitorMember (connected 0) lilyMember lounge st1) in
  st2 <> st1
  /\ streams st1 !! "42"%string = Some 0%nat
  /\ streams st2 !! "42"%string = Some 1%nat
  /\ decoders st2 = 2%nat
  /\ length (emitted st2) = 2%nat.
Proof.
  cbv zeta. split.
  - intros H. apply (f_equal decoders) in H. discriminate H.
  - repeat split; reflexivity.
Qed.

(** C8. Without a connection entry for the user, [playAudioStream] only
    writes a line on the console: no player is created and the maps are
    as before. With an entry, one new player is created, subscribed to
    that connection and given the stream; nothing is written. In both
    cases the call returns. *)
Theorem playAudioStream_needs_connection (user_id : string)
    (audioStream : Pipeline.Stream) (st : Manager) :
  (connections st !! user_id = None ->
   playAudioStream user_id audioStream st
   = mkManager (streams st) (connections st) (decoders st) (players st)
               (emitted st)
               (console st ++ [("No connection for user " ++ user_id)%string]))
  /\ (forall connection : Connection,
        connections st !! user_id = Some connection ->
        playAudioStream user_id audioStream st
        = mkManager (streams st) (connections st) (decoders st)
                    (players st ++ [mkPlayer connection audioStream])
                    (emitted st) (console st)).
Proof.
  unfold playAudioStream. split.
  - intros ->. reflexivity.
  - intros connection ->. reflexivity.
Qed.

Lemma playAudioStream_needs_connection_witness :
  playAudioStream "42" 3%nat empty
  = mkManager ∅ ∅ 0 [] [] ["No connection for user 42"%string]
  /\ players (playAudioStream "42" 3%nat
                (fst (monitorMember (connected 0) lilyMember lounge empty)))
     = [mkPlayer 7%nat 3%nat].
Proof.
  split.
  - apply (playAudioStream_needs_connection "42" 3%nat empty). reflexivity.
  - rewrite (proj2 (playAudioStream_needs_connection "42" 3%nat
                      (fst (monitorMember (connected 0) lilyMember lounge
                                          empty)))
                   7%nat); reflexivity.
Defined.

End RegistryFacts.

(** * Further properties of the code *)

(** ** The accumulator between deliveries *)

Section MonitorMore.
Import Monitor.

Lemma run_lastChunkTime (st : Accumulator) (l : list Arrival) :
  lastChunkTime (fst (run st l)) = List.last (map fst l) (lastChunkTime st).
Proof.
  revert st. induction l as [|[t c] l IH]; intros st; [reflexivity|].
  cbn [run map fst]. rewrite last_cons_default.
  assert (Ht : lastChunkTime (fst (onBuffer st t c)) = t)
    by (unfold onBuffer; destruct (shouldFlush _ _); reflexivity).
  destruct (onBuffer st t c) as [st1 out]. simpl in Ht.
  specialize (IH st1). destruct (run st1 l). simpl in *. now rewrite IH, Ht.
Qed.

(** X1. Whatever has been delivered, when the closure has returned the
    accumulator holds fewer than 1,000,000 bytes, [totalLength] is the
    exact size of the buffers held, and [lastChunkTime] is the clock
    reading of the latest delivery (of the set-up when there was none). *)
Theorem accumulator_stays_below_cap (start : Z) (l : list Arrival) :
  0 <= totalLength (fst (run (init start) l)) < 1000000
  /\ totalLength (fst (run (init start) l))
     = total_size (buffers (fst (run (init start) l)))
  /\ lastChunkTime (fst (run (init start) l)) = List.last (map fst l) start.
Proof.
  pose proof (run_consistent (init start) l (consistent_init start)) as Hc.
  pose proof (run_below_cap (init start) l (consistent_init start)) as Hb.
  unfold consistent in Hc. split; [split|split].
  - rewrite Hc. apply total_size_nonneg.
  - apply Hb. reflexivity.
  - exact Hc.
  - apply run_lastChunkTime.
Qed.

(** X2. A chunk delivered more than 500 ms after the delivery before it
    (after the set-up, when it is the first) is always flushed at once,
    whatever its size, together with everything held: the chunk that ends
    a pause closes the utterance before the pause, and the accumulator
    starts empty after it. *)
Theorem chunk_after_pause_closes_utterance (start t : Z) (l : list Arrival)
    (c : Buffer) :
  t - List.last (map fst l) start > 500 ->
  run (init start) (l ++ [(t, c)])
  = (init t,
     snd (run (init start) l)
       ++ [concat (buffers (fst (run (init start) l))) ++ c]).
Proof.
  intros Hgap.
  pose proof (run_consistent (init start) l (consistent_init start)) as Hc.
  pose proof (run_lastChunkTime (init start) l) as Ht. simpl in Ht.
  rewrite run_app. destruct (run (init start) l) as [st fl]. simpl in *.
  rewrite onBuffer_flush; [|exact Hc|].
  - rewrite concat_app. simpl. rewrite app_nil_r. reflexivity.
  - apply shouldFlush_spec. left. rewrite Ht. unfold maxSilenceTime. lia.
Qed.

Lemma chunk_after_pause_closes_utterance_witness :
  run (init 0) ([(100, zeros 10)] ++ [(700, zeros 20)])
  = (init 700,
     snd (run (init 0) [(100, zeros 10)])
       ++ [concat (buffers (fst (run (init 0) [(100, zeros 10)])))
             ++ zeros 20]).
Proof.
  apply (chunk_after_pause_closes_utterance 0 700 [(100, zeros 10)]
           (zeros 20)).
  simpl. lia.
Defined.

Lemma run_flush_bound (m : Z) (st : Accumulator) (l : list Arrival) :
  consistent st ->
  totalLength st < maxUtteranceBytes ->
  Forall (fun c => blen c <= m) (chunks l) ->
  Forall (fun u => blen u < maxUtteranceBytes + m) (snd (run st l)).
Proof.
  revert st. induction l as [|[t c] l IH]; intros st Hc Hb Hm;
    [constructor|].
  simpl in Hm. apply List.Forall_cons_iff in Hm. destruct Hm as [Hcm Hm].
  simpl.
  pose proof (onBuffer_consistent st t c Hc) as H1.
  pose proof (onBuffer_below_cap st t c Hc) as H2.
  destruct (shouldFlush (t - lastChunkTime st) (totalLength st + blen c))
    eqn:Hf.
  - rewrite (onBuffer_flush _ _ _ Hc Hf) in *. simpl in H1, H2.
    specialize (IH _ H1 H2 Hm). destruct (run (init t) l) as [st2 outs].
    simpl in *. constructor; [|exact IH].
    rewrite <- total_size_concat, <- (consistent_snoc _ _ Hc). lia.
  - rewrite (onBuffer_keep _ _ _ Hf) in *. simpl in H1, H2.
    specialize (IH _ H1 H2 Hm). destruct (run _ l) as [st2 outs]. exact IH.
Qed.

(** X3. When no chunk is longer than [m] bytes, every buffer handed to the
    pipeline is shorter than 1,000,000 + [m] bytes: an utterance exceeds
    the cap by less than its last chunk. *)
Theorem utterance_size_bound (start m : Z) (l : list Arrival) :
  Forall (fun c => blen c <= m) (chunks l) ->
  Forall (fun u => blen u < 1000000 + m) (snd (run (init start) l)).
Proof.
  intros Hm.
  apply (run_flush_bound m (init start) l (consistent_init start));
    [reflexivity | exact Hm].
Qed.

Lemma utterance_size_bound_witness :
  Forall (fun u => blen u < 1000000 + 20)
         (snd (run (init 0) [(100, zeros 10); (700, zeros 20)])).
Proof.
  apply (utterance_size_bound 0 20 [(100, zeros 10); (700, zeros 20)]).
  cbn [chunks map snd].
  apply List.Forall_cons; [rewrite blen_zeros; lia|].
  apply List.Forall_cons; [rewrite blen_zeros; lia|].
  apply List.Forall_nil.
Defined.

End MonitorMore.

(** ** What a run of the pipeline does and does not do *)

Section PipelineMore.
Import Pipeline.

Ltac split_call :=
  match goal with
  | |- context [match ?o with Ok _ => _ | Throw _ => _ end] =>
      lazymatch o with
      | context [match _ with _ => _ end] => fail
      | _ => destruct o eqn:?; cbn -[In]
      end
  end.

Ltac all_runs :=
  unfold trace, process, try_catch, bind, call, ret;
  repeat match goal with
  | |- context [if isCommand ?t then _ else _] =>
      destruct (isCommand t) eqn:?; cbn -[In]
  | |- context [match js_or ?a ?b with _ => _ end] =>
      destruct (js_or a b) as [[|? ?]|] eqn:?; cbn -[In]
  | |- context [match ?o with Some _ => _ | None => _ end] =>
      is_var o; destruct o; cbn -[In]
  | _ => split_call
  end.

Ltac in_cases H :=
  cbn in H;
  repeat match type of H with
  | _ \/ _ => destruct H as [H|H]
  | False => destruct H
  end.

Ltac use_returns :=
  cbn;
  repeat match goal with
  | H : ?f = _ |- context [error_of ?f] => rewrite H; cbn
  end.




Lemma falsy_not_command (text : option string) :
  truthy text = false -> isCommand text = false.
Proof.
  unfold isCommand. destruct text as [s|]; [|reflexivity].
  intros ->. reflexivity.
Qed.

Ltac no_raise Hall :=
  exfalso; apply List.Forall_forall in Hall;
  repeat match goal with
  | H : List.Forall _ (_ :: _) |- _ =>
      apply List.Forall_cons_iff in H; destruct H as [? H]
  end;
  cbn in *;
  repeat match goal with
  | H1 : ?f = Throw _, H2 : error_of ?f = None |- _ =>
      rewrite H1 in H2; discriminate H2
  end.

(** X5. An empty transcription does not stop the run: when [transcribe]
    returns null or the empty string and no call raises, the upserts and
    the state composition are made and the empty text is dispatched to
    [handleMessage]. *)
Theorem empty_transcription_is_dispatched (w : World) (sp : Speaker)
    (b : Buffer) (text : option string) :
  transcribe w b = Ok text ->
  truthy text = false ->
  (forall ev, In ev (trace w sp b) -> raised w ev = None) ->
  exists (botName : string) (state : State) (rest : list Event),
    trace w sp b
    = [Call_transcribe b;
       Call_fetchBotName (DISCORD_API_TOKEN w);
       Call_ensureUserExists (getUuid w (DISCORD_APPLICATION_ID w)) botName;
       Call_ensureUserExists (getUuid w (user_id sp)) (userName sp);
       Call_ensureRoomExists (getUuid w (channelId sp));
       Call_ensureParticipantInRoom (getUuid w (user_id sp))
                                    (getUuid w (channelId sp));
       Call_ensureParticipantInRoom (getUuid w (DISCORD_APPLICATION_ID w))
                                    (getUuid w (channelId sp));
       Call_composeState text (getUuid w (user_id sp))
                         (getUuid w (channelId sp)) botName;
       Call_handleMessage text (getUuid w (user_id sp))
                          (getUuid w (channelId sp)) state]
      ++ rest.
Proof.
  intros Htr Hfalsy. apply falsy_not_command in Hfalsy.
  unfold trace, process, try_catch, bind, call, ret.
  rewrite Htr. cbn -[In]. rewrite Hfalsy.
  all_runs; intros Hall;
    try (do 3 eexists; cbn; reflexivity);
    no_raise Hall.
Qed.

Lemma empty_transcription_is_dispatched_witness :
  exists (botName : string) (state : State) (rest : list Event),
    trace (calm None) lily []
    = [Call_transcribe [];
       Call_fetchBotName (DISCORD_API_TOKEN (calm None));
       Call_ensureUserExists
         (getUuid (calm None) (DISCORD_APPLICATION_ID (calm None))) botName;
       Call_ensureUserExists (getUuid (calm None) (user_id lily))
                             (userName lily);
       Call_ensureRoomExists (getUuid (calm None) (channelId lily));
       Call_ensureParticipantInRoom (getUuid (calm None) (user_id lily))
                                    (getUuid (calm None) (channelId lily));
       Call_ensureParticipantInRoom
         (getUuid (calm None) (DISCORD_APPLICATION_ID (calm None)))
         (getUuid (calm None) (channelId lily));
       Call_composeState None (getUuid (calm None) (user_id lily))
                         (getUuid (calm None) (channelId lily)) botName;
       Call_handleMessage None (getUuid (calm None) (user_id lily))
                          (getUuid (calm None) (channelId lily)) state]
      ++ rest.
Proof.
  apply (empty_transcription_is_dispatched (calm None) lily [] None).
  - reflexivity.
  - reflexivity.
  - intros ev Hin. vm_compute in Hin.
    repeat (destruct Hin as [<-|Hin]; [reflexivity|]). destruct Hin.
Defined.

(** X6. Audio is played only at the very end of a run in which every call
    returned: when [playAudioStream] is started, it is started for the
    user whose stream was heard, it is the last thing the run does, and
    nothing has been reported on the console. *)
Theorem playback_only_after_success (w : World) (sp : Speaker) (b : Buffer)
    (u : string) (rs : Stream) :
  In (Call_playAudioStream u rs) (trace w sp b) ->
  u = user_id sp
  /\ (exists pre, trace w sp b = pre ++ [Call_playAudioStream u rs])
  /\ (forall ev, In ev (trace w sp b) -> raised w ev = None)
  /\ (forall e, ~ In (Console_error e) (trace w sp b)).
Proof.
  all_runs; intros Hin; in_cases Hin; try discriminate Hin;
    injection Hin as <- <-; (split; [reflexivity|]);
    (split; [eexists (_ :: _ :: _ :: _ :: _ :: _ :: _ :: _ :: _ :: [_]);
             reflexivity|]);
    (split;
     [intros ev Hev; in_cases Hev; subst ev; use_returns; reflexivity
     |intros e Hev; in_cases Hev; discriminate Hev]).
Qed.

Lemma playback_only_after_success_witness :
  "42"%string = user_id lily
  /\ (exists pre, trace (calm (Some "hi"%string)) lily []
                  = pre ++ [Call_playAudioStream "42" 0%nat])
  /\ (forall ev, In ev (trace (calm (Some "hi"%string)) lily [])
                 -> raised (calm (Some "hi"%string)) ev = None)
  /\ (forall e,
        ~ In (Console_error e) (trace (calm (Some "hi"%string)) lily [])).
Proof.
  apply (playback_only_after_success (calm (Some "hi"%string)) lily []).
  vm_compute. tauto.
Defined.

(** X7. Nothing is reported on the console unless a call raised: a report
    is the last event of the run, it follows the call that raised, and it
    carries that call's error. *)
Theorem console_report_has_cause (w : World) (sp : Speaker) (b : Buffer)
    (e : Error) :
  In (Console_error e) (trace w sp b) ->
  exists (pre : list Event) (ev : Event),
    trace w sp b = pre ++ [ev; Console_error e]
    /\ raised w ev = Some e.
Proof.
  all_runs; intros Hin; in_cases Hin; try discriminate Hin;
    injection Hin as <-;
    match goal with
    | |- exists pre ev, ?l = _ /\ _ =>
        let rec go l acc :=
          lazymatch l with
          | [?x; Console_error _] => exists (List.rev acc), x
          | ?y :: ?l' => go l' (y :: acc)
          end in
        go l (@nil Event)
    end;
    (split; [reflexivity | use_returns; reflexivity]).
Qed.

Lemma console_report_has_cause_witness :
  exists (pre : list Event) (ev : Event),
    trace deaf lily [] = pre ++ [ev; Console_error "transcription failed"]
    /\ raised deaf ev = Some "transcription failed"%string.
Proof.
  apply (console_report_has_cause deaf lily []).
  vm_compute. tauto.
Defined.

End PipelineMore.

(** ** Pipelines started by the loop *)

Section LoopMore.
Import Monitor Pipeline Loop.

Variable w : World.
Variable sp : Speaker.

Lemma step_tasks (s : System) (k : Tick) :
  Forall silent (tasks s) ->
  length (tasks s) = length (utterances (log s)) ->
  length (tasks (step w sp s k)) = length (utterances (log (step w sp s k)))
  /\ (length (tasks s) <= length (tasks (step w sp s k)))%nat.
Proof.
  intros Hq Hlen. destruct k as [t c|i]; simpl.
  - destruct (onBuffer (acc s) t c) as [a [u|]]; simpl; [|lia].
    destruct (trace_one_utterance w sp u) as (rest & -> & _). simpl.
    rewrite utterances_snoc, !length_app. simpl. lia.
  - destruct (tasks s !! i) as [[|ev rest]|] eqn:Hi; simpl; try lia.
    pose proof (Forall_lookup_1 _ _ _ _ Hq Hi) as Hev.
    apply Forall_cons in Hev. destruct Hev as [Hev _].
    rewrite length_insert, utterances_snoc.
    rewrite (utterances_silent [ev]) by (repeat constructor; exact Hev).
    rewrite app_nil_r. lia.
Qed.

Lemma exec_tasks (ks : list Tick) (s : System) :
  Forall silent (tasks s) ->
  length (tasks s) = length (utterances (log s)) ->
  length (tasks (exec w sp s ks))
  = length (utterances (log (exec w sp s ks)))
  /\ (length (tasks s) <= length (tasks (exec w sp s ks)))%nat.
Proof.
  revert s. induction ks as [|k ks IH]; intros s Hq Hlen; [simpl; lia|].
  change (exec w sp s (k :: ks)) with (exec w sp (step w sp s k) ks).
  destruct (step_run w sp s k Hq) as [Hq1 _].
  destruct (step_tasks s k Hq Hlen) as [H1 H2].
  destruct (IH _ Hq1 H1) as [H3 H4]. split; [exact H3 | lia].
Qed.

(** X8. Under every schedule the pipelines started are as many as the
    utterances handed to transcription: a flush starts exactly one run,
    nothing else starts one, and a run once started is never dropped,
    whatever is delivered or resumed afterwards. *)
Theorem one_pipeline_per_utterance (now : Z) (ks ks' : list Tick) :
  length (tasks (exec w sp (start now) ks))
  = length (utterances (log (exec w sp (start now) ks)))
  /\ length (utterances (log (exec w sp (start now) ks)))
     = length (snd (run (init now) (deliveries ks)))
  /\ (length (tasks (exec w sp (start now) ks))
      <= length (tasks (exec w sp (start now) (ks ++ ks'))))%nat.
Proof.
  assert (Hq0 : Forall silent (tasks (start now))) by constructor.
  destruct (exec_tasks ks (start now) Hq0 eq_refl) as [H1 _].
  destruct (exec_run w sp ks (start now) Hq0) as [Hq Hrun].
  split; [exact H1|]. split.
  - apply (f_equal snd) in Hrun. simpl in Hrun. now rewrite Hrun.
  - unfold exec at 2. rewrite fold_left_app. fold (exec w sp).
    apply exec_tasks; assumption.
Qed.

End LoopMore.

(** ** Which channel is joined *)

Section PresenceFacts.
Import Guild Registry Presence.

Lemma voiceChannels_elem (fetched : list (option Channel)) (ch : Channel) :
  In ch (voiceChannels fetched) ->
  In (Some ch) fetched /\ type ch = GuildVoice.
Proof.
  induction fetched as [|[c|] fetched IH]; simpl; [tauto| |].
  - destruct (type c) eqn:Ht; simpl; try (intros H; apply IH in H; tauto).
    intros [<-|H]; [tauto | apply IH in H; tauto].
  - intros H. apply IH in H. tauto.
Qed.

(** X9. The channel that [scanGuild] hands to [joinChannel] is one of the
    fetched channels, is of type GuildVoice and has a member present: a
    text or stage channel, a null entry or an empty voice channel is
    never joined, however the guild is populated. *)
Theorem scanGuild_joins_occupied_voice_channel
    (fetched : list (option Channel)) (ch : Channel) :
  scanGuild fetched = Some ch ->
  In (Some ch) fetched /\ type ch = GuildVoice /\ members ch <> [].
Proof.
  intros Hs.
  pose proof (fold_consider_chosen_from (voiceChannels fetched)) as H.
  fold (scanGuild fetched) in H. rewrite Hs in H. simpl in H.
  destruct H as (Hpos & l1 & l2 & Heq & _).
  assert (Hin : In ch (voiceChannels fetched))
    by (rewrite Heq; apply in_or_app; right; left; reflexivity).
  apply voiceChannels_elem in Hin. destruct Hin as [Hin Ht].
  split; [exact Hin|]. split; [exact Ht|].
  unfold size in Hpos.
  destruct (members ch); [simpl in Hpos; lia | discriminate].
Qed.

Lemma scanGuild_joins_occupied_voice_channel_witness :
  In (Some botRoom) smallGuild /\ type botRoom = GuildVoice
  /\ members botRoom <> [].
Proof.
  apply (scanGuild_joins_occupied_voice_channel smallGuild botRoom).
  reflexivity.
Defined.

(** X10. A voice state update leads to a call of [joinChannel] only for a
    member that is not a bot and only when the update names a channel
    other than the one of the old state; the channel passed is the one of
    the new state. So an update that leaves the channel as it was (mute,
    deafen), and one in which the member leaves all channels, never make
    the client join. *)
Theorem voice_state_update_joins_new_channel
    (oldState newState : option VoiceState) (target : option Channel) :
  handleVoiceStateUpdate oldState newState = Some target ->
  exists (s : VoiceState) (c : string),
    newState = Some s
    /\ vs_channelId s = Some c
    /\ channelIdOf oldState <> Some c
    /\ target = vs_channel s
    /\ (forall m, vs_member s = Some m -> bot m = false).
Proof.
  unfold handleVoiceStateUpdate. intros H.
  destruct (isBotUpdate newState) eqn:Hbot; [discriminate|].
  destruct newState as [s|]; [|discriminate].
  destruct (vs_channelId s) as [c|] eqn:Hc; [|discriminate].
  destruct (decide (channelIdOf oldState = Some c)) as [|Hne]; [discriminate|].
  injection H as <-. exists s, c. repeat split; try assumption.
  intros m Hm. simpl in Hbot. rewrite Hm in Hbot. exact Hbot.
Qed.

Lemma voice_state_update_joins_new_channel_witness :
  exists (s : VoiceState) (c : string),
    Some (mkVoiceState (Some lilyMember) (Some "lounge"%string) (Some lounge))
    = Some s
    /\ vs_channelId s = Some c
    /\ channelIdOf None <> Some c
    /\ Some lounge = vs_channel s
    /\ (forall m, vs_member s = Some m -> bot m = false).
Proof.
  apply (voice_state_update_joins_new_channel None
           (Some (mkVoiceState (Some lilyMember) (Some "lounge"%string)
                               (Some lounge)))
           (Some lounge)).
  reflexivity.
Defined.

End PresenceFacts.

(** ** The registry under all its operations *)

Section RegistryMore.
Import Guild Registry Presence.

(** The three ways in which [monitorMember] ends. *)
Lemma monitorMember_cases (v : Voice) (member : GuildMember)
    (channel : Channel) (st : Manager) :
  let st' := fst (monitorMember v member channel st) in
  st' = st
  \/ st' = mkManager (streams st) (connections st) (S (decoders st))
                     (players st) (emitted st) (console st)
  \/ exists c,
       getVoiceConnection v (guildId member) = Some c
       /\ readableLength v c (id member) = 0%nat
       /\ st' = mkManager (<[id member := decoders st]> (streams st))
                          (<[id member := c]> (connections st))
                          (S (decoders st)) (players st)
                          (emitted st
                             ++ [mkUserStream (id member) (displayName member)
                                              (channelId channel)
                                              (decoders st)])
                          (console st).
Proof.
  unfold monitorMember.
  destruct (getVoiceConnection v (guildId member)) as [c|]; [|auto].
  destruct (0 <? readableLength v c (id member))%nat eqn:Hr; [auto|].
  apply Nat.ltb_ge in Hr. right. right. exists c. simpl.
  repeat split. lia.
Qed.

Lemma monitorMember_ready (v : Voice) (member : GuildMember)
    (channel : Channel) (st : Manager) (c : Connection) :
  getVoiceConnection v (guildId member) = Some c ->
  readableLength v c (id member) = 0%nat ->
  fst (monitorMember v member channel st)
  = mkManager (<[id member := decoders st]> (streams st))
              (<[id member := c]> (connections st))
              (S (decoders st)) (players st)
              (emitted st ++ [mkUserStream (id member) (displayName member)
                                           (channelId channel) (decoders st)])
              (console st).
Proof. intros Hc Hr. unfold monitorMember. now rewrite Hc, Hr. Qed.

Lemma coherent_monitorMember (v : Voice) (member : GuildMember)
    (channel : Channel) (st : Manager) :
  coherent st -> coherent (fst (monitorMember v member channel st)).
Proof.
  intros (Hdom & Hlt & Hinj).
  destruct (monitorMember_cases v member channel st)
    as [->|[->|(c & _ & _ & ->)]].
  - repeat split; assumption.
  - repeat split; simpl; [exact Hdom | | exact Hinj].
    intros u d Hu. specialize (Hlt u d Hu). lia.
  - repeat split; simpl.
    + rewrite !dom_insert_L, Hdom. reflexivity.
    + intros u d Hu. apply lookup_insert_Some in Hu.
      destruct Hu as [[_ <-]|[_ Hu]]; [lia|]. specialize (Hlt u d Hu). lia.
    + intros u1 u2 d H1 H2.
      apply lookup_insert_Some in H1. apply lookup_insert_Some in H2.
      destruct H1 as [[<- <-]|[Hn1 H1]], H2 as [[<- E2]|[Hn2 H2]];
        try reflexivity.
      * specialize (Hlt _ _ H2). lia.
      * subst d. specialize (Hlt _ _ H1). lia.
      * exact (Hinj _ _ _ H1 H2).
Qed.

Lemma coherent_streamCloseHandler (member : GuildMember) (st : Manager) :
  coherent st -> coherent (streamCloseHandler member st).
Proof.
  intros (Hdom & Hlt & Hinj). repeat split; simpl.
  - rewrite !dom_delete_L, Hdom. reflexivity.
  - intros u d Hu. apply lookup_delete_Some in Hu. exact (Hlt _ _ (proj2 Hu)).
  - intros u1 u2 d H1 H2.
    apply lookup_delete_Some in H1. apply lookup_delete_Some in H2.
    exact (Hinj _ _ _ (proj2 H1) (proj2 H2)).
Qed.

Lemma coherent_playAudioStream (u : string) (s : Pipeline.Stream)
    (st : Manager) :
  coherent st -> coherent (playAudioStream u s st).
Proof.
  intros H. unfold playAudioStream.
  destruct (connections st !! u); exact H.
Qed.

Lemma coherent_monitorAll (v : Voice) (channel : Channel)
    (ms : list GuildMember) (st : Manager) :
  coherent st -> coherent (monitorAll v channel ms st).
Proof.
  revert st. induction ms as [|m ms IH]; intros st H; [exact H|].
  simpl. apply IH. destruct (bot m); [exact H|].
  apply coherent_monitorMember, H.
Qed.

Lemma coherent_closeAll (closed : list GuildMember) (st : Manager) :
  coherent st -> coherent (closeAll closed st).
Proof.
  revert st. induction closed as [|m closed IH]; intros st H; [exact H|].
  simpl. apply IH, coherent_streamCloseHandler, H.
Qed.

Lemma coherent_apply (st : Manager) (op : Op) :
  coherent st -> coherent (apply st op).
Proof.
  intros H. destruct op as [v m ch|m|u s|old v ch|v ch u]; simpl.
  - apply coherent_monitorMember, H.
  - apply coherent_streamCloseHandler, H.
  - apply coherent_playAudioStream, H.
  - unfold joinChannel. apply coherent_closeAll, coherent_monitorAll.
    destruct old as [|closed|e]; exact H.
  - unfold onSpeakingStart.
    destruct (membersGet ch u) as [user|]; [|exact H].
    destruct (bot user); [exact H|]. simpl.
    apply coherent_monitorMember, H.
Qed.

Lemma coherent_after (ops : list Op) : coherent (after ops).
Proof.
  unfold after. induction ops as [|op ops IH] using rev_ind.
  - split; [|split]; simpl.
    + rewrite !dom_empty_L. reflexivity.
    + intros u d. rewrite lookup_empty. discriminate.
    + intros u1 u2 d. rewrite lookup_empty. discriminate.
  - rewrite fold_left_app. simpl. apply coherent_apply, IH.
Qed.

(** X11. After any sequence of [monitorMember], stream close,
    [playAudioStream], [joinChannel] and speaking start, whatever the
    voice library answers: a user has an entry in [streams] exactly when
    it has one in [connections], and no decoder is registered for two
    users. *)
Theorem registry_stays_coherent (ops : list Op) (u1 u2 : string)
    (d : Decoder) :
  (is_Some (streams (after ops) !! u1)
   <-> is_Some (connections (after ops) !! u1))
  /\ (streams (after ops) !! u1 = Some d ->
      streams (after ops) !! u2 = Some d -> u1 = u2).
Proof.
  destruct (coherent_after ops) as (Hdom & _ & Hinj). split.
  - rewrite <- !elem_of_dom, Hdom. reflexivity.
  - apply Hinj.
Qed.

Lemma registry_stays_coherent_witness :
  (is_Some (streams (after [Monitor (connected 0) lilyMember lounge])
              !! "42"%string)
   <-> is_Some (connections (after [Monitor (connected 0) lilyMember lounge])
                  !! "42"%string))
  /\ "42"%string = "42"%string.
Proof.
  destruct (registry_stays_coherent [Monitor (connected 0) lilyMember lounge]
              "42" "42" 0%nat) as [H1 H2].
  split; [exact H1|]. apply H2; reflexivity.
Defined.

(** X12. In every manager reached that way, [playAudioStream] creates a
    player exactly for the users that are monitored: with an entry in
    [streams] one player is added, without one the list of players is as
    before. *)
Theorem playback_exactly_for_monitored_users (ops : list Op) (u : string)
    (s : Pipeline.Stream) :
  (is_Some (streams (after ops) !! u) ->
   exists c, players (playAudioStream u s (after ops))
             = players (after ops) ++ [mkPlayer c s])
  /\ (streams (after ops) !! u = None ->
      players (playAudioStream u s (after ops)) = players (after ops)).
Proof.
  destruct (coherent_after ops) as (Hdom & _ & _).
  unfold playAudioStream. split.
  - intros Hs. apply elem_of_dom in Hs. rewrite Hdom in Hs.
    apply elem_of_dom in Hs. destruct Hs as [c Hc]. rewrite Hc. eauto.
  - intros Hs. apply not_elem_of_dom in Hs. rewrite Hdom in Hs.
    apply not_elem_of_dom in Hs. now rewrite Hs.
Qed.

Lemma playback_exactly_for_monitored_users_witness :
  (exists c, players (playAudioStream "42" 3%nat
                        (after [Monitor (connected 0) lilyMember lounge]))
             = players (after [Monitor (connected 0) lilyMember lounge])
                 ++ [mkPlayer c 3%nat])
  /\ players (playAudioStream "7" 3%nat
                (after [Monitor (connected 0) lilyMember lounge]))
     = players (after [Monitor (connected 0) lilyMember lounge]).
Proof.
  split.
  - apply (playback_exactly_for_monitored_users
             [Monitor (connected 0) lilyMember lounge] "42" 3%nat).
    exists 0%nat. reflexivity.
  - apply (playback_exactly_for_monitored_users
             [Monitor (connected 0) lilyMember lounge] "7" 3%nat).
    reflexivity.
Defined.

(** X13. Registering a user that was not monitored and then closing its
    stream leaves both maps as they were: the close handler undoes exactly
    what [monitorMember] has put in. *)
Theorem monitor_then_close_restores_maps (v : Voice) (member : GuildMember)
    (channel : Channel) (st : Manager) (c : Connection) :
  getVoiceConnection v (guildId member) = Some c ->
  readableLength v c (id member) = 0%nat ->
  streams st !! id member = None ->
  connections st !! id member = None ->
  streams (streamCloseHandler member
             (fst (monitorMember v member channel st))) = streams st
  /\ connections (streamCloseHandler member
                    (fst (monitorMember v member channel st)))
     = connections st.
Proof.
  intros Hc Hr Hs Hn. rewrite (monitorMember_ready _ _ _ _ _ Hc Hr). simpl.
  rewrite !delete_insert_eq, !delete_id by assumption. auto.
Qed.

Lemma monitor_then_close_restores_maps_witness :
  streams (streamCloseHandler lilyMember
             (fst (monitorMember (connected 0) lilyMember lounge empty)))
  = streams empty
  /\ connections (streamCloseHandler lilyMember
                    (fst (monitorMember (connected 0) lilyMember lounge
                                        empty)))
     = connections empty.
Proof.
  apply (monitor_then_close_restores_maps (connected 0) lilyMember lounge
           empty 7%nat); reflexivity.
Defined.

(** X14. Once the stream of a member has closed, that member has no entry
    in either map, so [playAudioStream] for it creates no player; the
    entries of every other user are untouched, and a second close changes
    neither map. *)
Theorem close_releases_only_that_user (member : GuildMember) (st : Manager)
    (u : string) (s : Pipeline.Stream) :
  streams (streamCloseHandler member st) !! id member = None
  /\ connections (streamCloseHandler member st) !! id member = None
  /\ players (playAudioStream (id member) s (streamCloseHandler member st))
     = players st
  /\ (u <> id member ->
      streams (streamCloseHandler member st) !! u = streams st !! u
      /\ connections (streamCloseHandler member st) !! u
         = connections st !! u)
  /\ streams (streamCloseHandler member (streamCloseHandler member st))
     = streams (streamCloseHandler member st)
  /\ connections (streamCloseHandler member (streamCloseHandler member st))
     = connections (streamCloseHandler member st).
Proof.
  unfold playAudioStream. simpl. rewrite !lookup_delete_eq. simpl.
  rewrite !delete_delete_eq.
  repeat split; try reflexivity;
    apply lookup_delete_ne; congruence.
Qed.

Lemma close_releases_only_that_user_witness :
  streams (streamCloseHandler botRoomMember
             (fst (monitorMember (connected 0) lilyMember lounge empty)))
    !! "42"%string
  = streams (fst (monitorMember (connected 0) lilyMember lounge empty))
      !! "42"%string
  /\ connections (streamCloseHandler botRoomMember
                    (fst (monitorMember (connected 0) lilyMember lounge
                                        empty)))
       !! "42"%string
     = connections (fst (monitorMember (connected 0) lilyMember lounge empty))
         !! "42"%string.
Proof.
  destruct (close_releases_only_that_user botRoomMember
              (fst (monitorMember (connected 0) lilyMember lounge empty))
              "42" 0%nat) as (_ & _ & _ & H & _).
  apply H. discriminate.
Defined.

(** ** [joinChannel] and the speaking events *)

Lemma monitorMember_keeps (v : Voice) (member : GuildMember)
    (channel : Channel) (st : Manager) (u : string) :
  (is_Some (streams st !! u) ->
   is_Some (streams (fst (monitorMember v member channel st)) !! u))
  /\ (is_Some (connections st !! u) ->
      is_Some (connections (fst (monitorMember v member channel st)) !! u)).
Proof.
  destruct (monitorMember_cases v member channel st)
    as [->|[->|(c & _ & _ & ->)]]; simpl; auto.
  split; intros H; rewrite lookup_insert; case_decide; eauto.
Qed.

Lemma monitorAll_keeps (v : Voice) (channel : Channel)
    (ms : list GuildMember) (st : Manager) (u : string) :
  is_Some (streams st !! u) ->
  is_Some (connections st !! u) ->
  is_Some (streams (monitorAll v channel ms st) !! u)
  /\ is_Some (connections (monitorAll v channel ms st) !! u).
Proof.
  revert st. induction ms as [|m ms IH]; intros st Hs Hc; [auto|].
  simpl. apply IH; destruct (bot m); auto;
    apply monitorMember_keeps; assumption.
Qed.

Lemma monitorAll_ready (v : Voice) (channel : Channel)
    (ms : list GuildMember) (st : Manager) :
  allReady v (filter (fun m => bot m = false) ms) ->
  (forall m, In m ms -> bot m = false ->
     is_Some (streams (monitorAll v channel ms st) !! id m)
     /\ is_Some (connections (monitorAll v channel ms st) !! id m))
  /\ decoders (monitorAll v channel ms st)
     = (decoders st + length (filter (fun m => bot m = false) ms))%nat
  /\ length (emitted (monitorAll v channel ms st))
     = (length (emitted st)
        + length (filter (fun m => bot m = false) ms))%nat.
Proof.
  revert st. induction ms as [|m ms IH]; intros st Hr.
  - simpl. split; [intros m []|split; lia].
  - simpl. destruct (bot m) eqn:Hb.
    + rewrite filter_cons_False in * by congruence.
      destruct (IH st Hr) as (H1 & H2 & H3).
      repeat split; try assumption;
        destruct H as [<-|H]; try congruence; apply H1; assumption.
    + rewrite filter_cons_True in * by assumption.
      apply List.Forall_cons_iff in Hr. destruct Hr as [(c & Hc & Hu) Hr].
      rewrite (monitorMember_ready _ _ _ _ _ Hc Hu).
      destruct (IH (mkManager (<[id m := decoders st]> (streams st))
                              (<[id m := c]> (connections st))
                              (S (decoders st)) (players st)
                              (emitted st
                                 ++ [mkUserStream (id m) (displayName m)
                                                  (channelId channel)
                                                  (decoders st)])
                              (console st)) Hr) as (H1 & H2 & H3).
      split; [|split].
      * intros m' [<-|Hin] Hb'; [|apply H1; assumption].
        apply monitorAll_keeps; simpl; rewrite lookup_insert_eq; eauto.
      * rewrite H2. simpl. lia.
      * rewrite H3. simpl. rewrite length_app. simpl. lia.
Qed.

Lemma closeAll_none (closed : list GuildMember) (st : Manager)
    (u : string) :
  streams st !! u = None -> connections st !! u = None ->
  streams (closeAll closed st) !! u = None
  /\ connections (closeAll closed st) !! u = None.
Proof.
  revert st. induction closed as [|m closed IH]; intros st Hs Hc; [auto|].
  simpl. apply IH; simpl; apply lookup_delete_None; auto.
Qed.

Lemma closeAll_gone (closed : list GuildMember) (st : Manager)
    (m : GuildMember) :
  In m closed ->
  streams (closeAll closed st) !! id m = None
  /\ connections (closeAll closed st) !! id m = None.
Proof.
  revert st. induction closed as [|m0 closed IH]; intros st; [intros []|].
  intros [->|Hin]; simpl; [|apply IH, Hin].
  apply closeAll_none; simpl; apply lookup_delete_eq.
Qed.

Lemma closeAll_frame (closed : list GuildMember) (st : Manager)
    (u : string) :
  (forall m, In m closed -> id m <> u) ->
  streams (closeAll closed st) !! u = streams st !! u
  /\ connections (closeAll closed st) !! u = connections st !! u.
Proof.
  revert st. induction closed as [|m0 closed IH]; intros st Hne; [auto|].
  simpl.
  destruct (IH (streamCloseHandler m0 st)) as [H1 H2];
    [intros m Hin; apply Hne; right; exact Hin|].
  rewrite H1, H2. simpl.
  assert (id m0 <> u) by (apply Hne; left; reflexivity).
  rewrite !lookup_delete_ne by assumption. auto.
Qed.

Lemma closeAll_fields (closed : list GuildMember) (st : Manager) :
  decoders (closeAll closed st) = decoders st
  /\ players (closeAll closed st) = players st
  /\ emitted (closeAll closed st) = emitted st.
Proof.
  revert st. induction closed as [|m0 closed IH]; intros st; [auto|].
  simpl. destruct (IH (streamCloseHandler m0 st)) as (H1 & H2 & H3).
  rewrite H1, H2, H3. auto.
Qed.

(** X15. Let every member of the channel that is not a bot have a
    connection and nothing unread on its receive stream. Then
    [joinChannel] creates one decoder and emits one [userStream] event
    per such member, however the old connection fared; and once the close
    events of a destroyed old connection have been handled, each such
    member whose old stream was not among those closed has an entry in
    both maps. *)
Theorem joinChannel_monitors_every_non_bot (oldConnection : OldConnection)
    (v : Voice) (channel : Channel) (st : Manager) (m : GuildMember) :
  allReady v (filter (fun m => bot m = false) (members channel)) ->
  (In m (members channel) -> bot m = false ->
   (forall m', In m' (closedBy oldConnection) -> id m' <> id m) ->
   is_Some (streams (joinChannel oldConnection v channel st) !! id m)
   /\ is_Some (connections (joinChannel oldConnection v channel st) !! id m))
  /\ decoders (joinChannel oldConnection v channel st)
     = (decoders st + nonBots channel)%nat
  /\ length (emitted (joinChannel oldConnection v channel st))
     = (length (emitted st) + nonBots channel)%nat.
Proof.
  intros Hr. unfold joinChannel, nonBots.
  set (st1 := match oldConnection with
              | DestroyFailed _ => _
              | _ => st
              end).
  assert (Hd : decoders st1 = decoders st /\ emitted st1 = emitted st)
    by (unfold st1; destruct oldConnection as [|closed|e]; auto).
  destruct Hd as [Hd He].
  destruct (monitorAll_ready v channel (members channel) st1 Hr)
    as (H1 & H2 & H3).
  destruct (closeAll_fields (closedBy oldConnection)
              (monitorAll v channel (members channel) st1))
    as (F1 & _ & F3).
  rewrite F1, F3, H2, H3, Hd, He. split; [|auto].
  intros Hin Hb Hne.
  destruct (closeAll_frame (closedBy oldConnection)
              (monitorAll v channel (members channel) st1) (id m) Hne)
    as [C1 C2].
  rewrite C1, C2. apply H1; assumption.
Qed.

Lemma joinChannel_monitors_every_non_bot_witness :
  (is_Some (streams (joinChannel (Destroyed [botRoomMember]) (connected 0)
                                 lounge empty)
              !! id lilyMember)
   /\ is_Some (connections (joinChannel (Destroyed [botRoomMember])
                                        (connected 0) lounge empty)
                 !! id lilyMember))
  /\ decoders (joinChannel (Destroyed [botRoomMember]) (connected 0) lounge
                           empty)
     = (decoders empty + nonBots lounge)%nat
  /\ length (emitted (joinChannel (Destroyed [botRoomMember]) (connected 0)
                                  lounge empty))
     = (length (emitted empty) + nonBots lounge)%nat.
Proof.
  destruct (joinChannel_monitors_every_non_bot (Destroyed [botRoomMember])
              (connected 0) lounge empty lilyMember) as (H1 & H2 & H3).
  - apply List.Forall_cons; [|apply List.Forall_nil].
    exists 7%nat. split; reflexivity.
  - split; [|split; assumption].
    apply H1; [left; reflexivity | reflexivity |].
    intros m' [<-|[]]. discriminate.
Defined.

Lemma monitorAll_frame (v : Voice) (channel : Channel)
    (ms : list GuildMember) (st : Manager) (u : string) :
  (forall m, In m ms -> bot m = false -> id m <> u) ->
  streams (monitorAll v channel ms st) !! u = streams st !! u
  /\ connections (monitorAll v channel ms st) !! u = connections st !! u
  /\ players (monitorAll v channel ms st) = players st
  /\ console (monitorAll v channel ms st) = console st.
Proof.
  revert st. induction ms as [|m ms IH]; intros st Hne; [auto|].
  simpl.
  assert (Hne' : forall m', In m' ms -> bot m' = false -> id m' <> u)
    by (intros m' Hin; apply Hne; right; exact Hin).
  destruct (bot m) eqn:Hb; [apply IH, Hne'|].
  destruct (IH (fst (monitorMember v m channel st)) Hne')
    as (H1 & H2 & H3 & H4).
  rewrite H1, H2, H3, H4.
  assert (Hm : id m <> u) by (apply Hne; [left; reflexivity | exact Hb]).
  destruct (monitorMember_cases v m channel st)
    as [->|[->|(c & _ & _ & ->)]]; simpl; auto.
  rewrite !lookup_insert_ne by exact Hm. auto.
Qed.

Lemma monitorAll_players (v : Voice) (channel : Channel)
    (ms : list GuildMember) (st : Manager) :
  players (monitorAll v channel ms st) = players st.
Proof.
  revert st. induction ms as [|m ms IH]; intros st; [reflexivity|].
  simpl. rewrite IH. destruct (bot m); [reflexivity|].
  destruct (monitorMember_cases v m channel st)
    as [->|[->|(c & _ & _ & ->)]]; reflexivity.
Qed.

Lemma joinChannel_players (oldConnection : OldConnection) (v : Voice)
    (channel : Channel) (st : Manager) :
  players (joinChannel oldConnection v channel st) = players st.
Proof.
  unfold joinChannel.
  match goal with
  | |- players (closeAll ?cl ?x) = _ =>
      destruct (closeAll_fields cl x) as (_ & F2 & _); rewrite F2
  end.
  rewrite monitorAll_players. destruct oldConnection; reflexivity.
Qed.

(** X16. [joinChannel] changes the entries of no one but the members of
    the channel that are not bots and the members whose old streams the
    destroy has closed: for any other user id, a bot of the channel
    included, both maps hold afterwards what they held before. Joining
    never creates a player. *)
Theorem joinChannel_touches_only_non_bots (oldConnection : OldConnection)
    (v : Voice) (channel : Channel) (st : Manager) (u : string) :
  players (joinChannel oldConnection v channel st) = players st
  /\ ((forall m, In m (members channel) -> bot m = false -> id m <> u) ->
      (forall m, In m (closedBy oldConnection) -> id m <> u) ->
      streams (joinChannel oldConnection v channel st) !! u = streams st !! u
      /\ connections (joinChannel oldConnection v channel st) !! u
         = connections st !! u).
Proof.
  unfold joinChannel.
  set (st1 := match oldConnection with
              | DestroyFailed _ => _
              | _ => st
              end).
  assert (Hst1 : streams st1 = streams st /\ connections st1 = connections st
                 /\ players st1 = players st)
    by (unfold st1; destruct oldConnection as [|closed|e]; auto).
  destruct Hst1 as (S1 & S2 & S3).
  destruct (closeAll_fields (closedBy oldConnection)
              (monitorAll v channel (members channel) st1))
    as (_ & F2 & _).
  split.
  - rewrite F2, monitorAll_players. exact S3.
  - intros Hne Hcl.
    destruct (closeAll_frame (closedBy oldConnection)
                (monitorAll v channel (members channel) st1) u Hcl)
      as [C1 C2].
    destruct (monitorAll_frame v channel (members channel) st1 u Hne)
      as (H1 & H2 & _).
    rewrite C1, C2, H1, H2, S1, S2. auto.
Qed.

Lemma joinChannel_touches_only_non_bots_witness :
  streams (joinChannel (Destroyed [lilyMember]) (connected 0) botRoom empty)
    !! "1"%string
  = streams empty !! "1"%string
  /\ connections (joinChannel (Destroyed [lilyMember]) (connected 0) botRoom
                              empty)
       !! "1"%string
     = connections empty !! "1"%string.
Proof.
  destruct (joinChannel_touches_only_non_bots (Destroyed [lilyMember])
              (connected 0) botRoom empty "1") as [_ H].
  apply H.
  - intros m Hin Hb. simpl in Hin.
    destruct Hin as [<-|[<-|[]]]; discriminate Hb.
  - intros m [<-|[]]. discriminate.
Defined.

Lemma monitorAll_console (v : Voice) (channel : Channel)
    (ms : list GuildMember) (st : Manager) :
  console (monitorAll v channel ms st) = console st.
Proof.
  revert st. induction ms as [|m ms IH]; intros st; [reflexivity|].
  simpl. rewrite IH. destruct (bot m); [reflexivity|].
  destruct (monitorMember_cases v m channel st)
    as [->|[->|(c & _ & _ & ->)]]; reflexivity.
Qed.

(** X17. Joining again undoes its own registrations: when the old
    connection is destroyed, every member whose old receive stream closes
    ends up without an entry in either map, also a member of the new
    channel that the same join has just registered, and [playAudioStream]
    for it then creates no player. A destroy that raises closes nothing
    and costs one line on the console. *)
Theorem rejoin_releases_closed_members (closed : list GuildMember)
    (error : Pipeline.Error) (v : Voice) (channel : Channel) (st : Manager)
    (m : GuildMember) (s : Pipeline.Stream) :
  (In m closed ->
   streams (joinChannel (Destroyed closed) v channel st) !! id m = None
   /\ connections (joinChannel (Destroyed closed) v channel st) !! id m
      = None
   /\ players (playAudioStream (id m) s
                 (joinChannel (Destroyed closed) v channel st))
      = players st)
  /\ console (joinChannel (DestroyFailed error) v channel st)
     = console st ++ [("Error leaving voice channel: " ++ error)%string].
Proof.
  split.
  - intros Hin.
    pose proof (joinChannel_players (Destroyed closed) v channel st) as Hp.
    unfold joinChannel in *. simpl closedBy in *.
    destruct (closeAll_gone closed
                (monitorAll v channel (members channel) st) m Hin)
      as [H1 H2].
    split; [exact H1|]. split; [exact H2|].
    unfold playAudioStream. rewrite H2. simpl. exact Hp.
  - unfold joinChannel. simpl. apply monitorAll_console.
Qed.

Lemma rejoin_releases_closed_members_witness :
  streams (joinChannel (Destroyed [lilyMember]) (connected 0) lounge
             (fst (monitorMember (connected 0) lilyMember lounge empty)))
    !! id lilyMember = None
  /\ connections (joinChannel (Destroyed [lilyMember]) (connected 0) lounge
                    (fst (monitorMember (connected 0) lilyMember lounge
                                        empty)))
       !! id lilyMember = None
  /\ players (playAudioStream (id lilyMember) 3%nat
                (joinChannel (Destroyed [lilyMember]) (connected 0) lounge
                   (fst (monitorMember (connected 0) lilyMember lounge
                                       empty))))
     = players (fst (monitorMember (connected 0) lilyMember lounge empty)).
Proof.
  destruct (rejoin_releases_closed_members [lilyMember] "x" (connected 0)
              lounge
              (fst (monitorMember (connected 0) lilyMember lounge empty))
              lilyMember 3%nat) as [H _].
  apply H. left. reflexivity.
Defined.

Lemma membersGet_id (channel : Channel) (user_id : string)
    (user : GuildMember) :
  membersGet channel user_id = Some user ->
  id user = user_id /\ In user (members channel).
Proof.
  unfold membersGet. intros H. apply List.find_some in H.
  destruct H as [Hin Heq]. apply String.eqb_eq in Heq. auto.
Qed.

(** X18. When a member that is not a bot starts speaking while it has a
    connection and nothing unread on its receive stream, the listener
    registers a new decoder for it and emits "speakingStarted" on that new
    decoder: a decoder registered for the member before is replaced and
    does not get the event. With unread data on the receive stream the
    registry stays as it is and the event goes to the decoder already
    registered. *)
Theorem speaking_start_signals_fresh_decoder (ops : list Op) (v : Voice)
    (channel : Channel) (user_id : string) (user : GuildMember)
    (c : Connection) :
  membersGet channel user_id = Some user ->
  bot user = false ->
  getVoiceConnection v (guildId user) = Some c ->
  (readableLength v c user_id = 0%nat ->
   snd (onSpeakingStart v channel user_id (after ops))
   = Some (decoders (after ops))
   /\ streams (fst (onSpeakingStart v channel user_id (after ops))) !! user_id
      = Some (decoders (after ops))
   /\ streams (after ops) !! user_id <> Some (decoders (after ops)))
  /\ ((0 < readableLength v c user_id)%nat ->
      onSpeakingStart v channel user_id (after ops)
      = (after ops, streams (after ops) !! user_id)).
Proof.
  intros Hget Hbot Hc.
  destruct (membersGet_id _ _ _ Hget) as [Hid _].
  unfold onSpeakingStart. rewrite Hget, Hbot. split.
  - intros Hr. rewrite <- Hid in Hr.
    rewrite (monitorMember_ready _ _ _ _ _ Hc Hr). simpl.
    rewrite Hid.
    split; [apply lookup_insert_eq|]. split; [apply lookup_insert_eq|].
    intros Hs. destruct (coherent_after ops) as (_ & Hlt & _).
    specialize (Hlt _ _ Hs). lia.
  - intros Hr. rewrite <- Hid in Hr. unfold monitorMember. rewrite Hc.
    apply Nat.ltb_lt in Hr. rewrite Hr. reflexivity.
Qed.

Lemma speaking_start_signals_fresh_decoder_witness :
  snd (onSpeakingStart (connected 0) lounge "42"
         (after [Monitor (connected 0) lilyMember lounge]))
  = Some (decoders (after [Monitor (connected 0) lilyMember lounge]))
  /\ streams (fst (onSpeakingStart (connected 0) lounge "42"
                     (after [Monitor (connected 0) lilyMember lounge])))
       !! "42"%string
     = Some (decoders (after [Monitor (connected 0) lilyMember lounge]))
  /\ streams (after [Monitor (connected 0) lilyMember lounge]) !! "42"%string
     <> Some (decoders (after [Monitor (connected 0) lilyMember lounge])).
Proof.
  destruct (speaking_start_signals_fresh_decoder
              [Monitor (connected 0) lilyMember lounge] (connected 0) lounge
              "42" lilyMember 7%nat) as [H _]; try reflexivity.
  apply H. reflexivity.
Defined.

End RegistryMore.

(** ** Speech synthesis *)

Section SpeechFacts.
Import Pipeline Speech.

(** Two resumptions are enough: an uninterrupted call always finishes. *)
Lemma textToSpeech_finishes (env : Env) (st : Synth) (text : string) :
  exists r, snd (textToSpeech env st text) = Finished r.
Proof.
  unfold textToSpeech, begin.
  destruct (truthy (ELEVENLABS_XI_API_KEY env)); simpl; [eauto|].
  destruct (speechSynthesizer st) as [e|]; simpl.
  - destruct (synthesize env e text); simpl; eauto.
  - destruct (create env "./model.onnx") as [e|]; simpl; [|eauto].
    destruct (synthesize env e text); simpl; eauto.
Qed.

Lemma textToSpeech_loaded (env : Env) (st : Synth) (text : string)
    (e : Engine) :
  speechSynthesizer st = Some e ->
  speechSynthesizer (fst (fst (textToSpeech env st text))) = Some e
  /\ Forall (fun ev => isCreate ev = false)
            (snd (fst (textToSpeech env st text))).
Proof.
  intros He. unfold textToSpeech, begin.
  destruct (truthy (ELEVENLABS_XI_API_KEY env)); simpl.
  - split; [exact He | repeat constructor].
  - rewrite He. simpl.
    destruct (synthesize env e text); simpl;
      (split; [exact He | repeat constructor]).
Qed.

Lemma sequence_loaded (calls : list (Env * string)) (st : Synth)
    (e : Engine) :
  speechSynthesizer st = Some e ->
  speechSynthesizer (fst (fst (sequence st calls))) = Some e
  /\ Forall (fun ev => isCreate ev = false) (snd (fst (sequence st calls))).
Proof.
  revert st. induction calls as [|[env text] calls IH]; intros st He.
  - simpl. split; [exact He | constructor].
  - simpl. destruct (textToSpeech_loaded env st text e He) as [H1 H2].
    destruct (textToSpeech env st text) as [[st1 ev] pc]. simpl in H1, H2.
    destruct (IH st1 H1) as [H3 H4].
    destruct (sequence st1 calls) as [[st2 evs] pcs]. simpl in *.
    split; [exact H3 | apply Forall_app; auto].
Qed.

(** X19. The engine is loaded once for calls made one after the other:
    when a call without the API key finds no engine and
    [SpeechSynthesizer.create] returns one, that engine is stored, and in
    any calls that follow, whatever their environments, it is never
    created again and never replaced. *)
Theorem engine_loaded_once (env : Env) (st : Synth) (text : string)
    (e : Engine) (calls : list (Env * string)) (p : string) :
  truthy (ELEVENLABS_XI_API_KEY env) = false ->
  speechSynthesizer st = None ->
  create env "./model.onnx" = Ok e ->
  speechSynthesizer (fst (fst (textToSpeech env st text))) = Some e
  /\ speechSynthesizer
       (fst (fst (sequence (fst (fst (textToSpeech env st text))) calls)))
     = Some e
  /\ ~ In (E_create p)
          (snd (fst (sequence (fst (fst (textToSpeech env st text))) calls))).
Proof.
  intros Hk Hn Hc.
  assert (H1 : speechSynthesizer (fst (fst (textToSpeech env st text)))
               = Some e).
  { unfold textToSpeech, begin. rewrite Hk, Hn. simpl. rewrite Hc. simpl.
    destruct (synthesize env e text); reflexivity. }
  split; [exact H1|].
  destruct (sequence_loaded calls _ e H1) as [H2 H3].
  split; [exact H2|].
  intros Hin. rewrite List.Forall_forall in H3.
  specialize (H3 _ Hin). discriminate H3.
Qed.

(** X20. With the API key set the local engine is left alone: over any
    calls made one after the other, each with the key, the state is the
    one before (no engine is loaded, no file is written), each call only
    reaches the remote service, and each resolves to what that service
    returns. *)
Theorem api_key_bypasses_local_engine (st : Synth)
    (calls : list (Env * string)) :
  Forall (fun c => truthy (ELEVENLABS_XI_API_KEY (fst c)) = true) calls ->
  sequence st calls
  = (st,
     map (fun c => E_elevenlabs (snd c)) calls,
     map (fun c => Finished (elevenlabs (fst c) (snd c))) calls).
Proof.
  induction calls as [|[env text] calls IH]; intros Hk; [reflexivity|].
  apply List.Forall_cons_iff in Hk. destruct Hk as [Hk Hks].
  simpl in Hk. simpl. unfold textToSpeech, begin. rewrite Hk. simpl.
  rewrite (IH Hks). reflexivity.
Qed.


(** X22. The engine is not loaded once when calls overlap: if a second
    call starts while the first still waits for
    [SpeechSynthesizer.create], both call it; each then synthesizes with
    the engine it got, and the field keeps the one that arrived last. *)
Theorem overlapping_calls_both_create (envA envB envA' envB' : Env)
    (st : Synth) (t1 t2 : string) (e1 e2 : Engine) :
  truthy (ELEVENLABS_XI_API_KEY envA) = false ->
  truthy (ELEVENLABS_XI_API_KEY envB) = false ->
  speechSynthesizer st = None ->
  create envA' "./model.onnx" = Ok e1 ->
  create envB' "./model.onnx" = Ok e2 ->
  let a := begin envA st t1 in
  let b := begin envB (fst (fst a)) t2 in
  let a' := resume envA' (fst (fst b)) (snd a) in
  let b' := resume envB' (fst (fst a')) (snd b) in
  snd (fst a) ++ snd (fst b) ++ snd (fst a') ++ snd (fst b')
  = [E_create "./model.onnx"; E_create "./model.onnx";
     E_synthesize e1 t1; E_synthesize e2 t2]
  /\ speechSynthesizer (fst (fst b')) = Some e2.
Proof.
  intros Hka Hkb Hn Hc1 Hc2. unfold begin. rewrite Hka, Hn. simpl.
  rewrite Hkb, Hn. simpl. rewrite Hc1. simpl. rewrite Hc2. simpl. auto.
Qed.

Lemma engine_loaded_once_witness :
  speechSynthesizer
    (fst (fst (textToSpeech (localEnv 5%nat) (mkSynth None ∅) "hello")))
  = Some 5%nat
  /\ speechSynthesizer
       (fst (fst (sequence
                    (fst (fst (textToSpeech (localEnv 5%nat) (mkSynth None ∅)
                                            "hello")))
                    [(localEnv 6%nat, "again"%string)])))
     = Some 5%nat
  /\ ~ In (E_create "./model.onnx")
          (snd (fst (sequence
                       (fst (fst (textToSpeech (localEnv 5%nat) (mkSynth None ∅)
                                               "hello")))
                       [(localEnv 6%nat, "again"%string)]))).
Proof.
  apply (engine_loaded_once (localEnv 5%nat) (mkSynth None ∅) "hello" 5%nat
           [(localEnv 6%nat, "again"%string)] "./model.onnx"); reflexivity.
Defined.

Lemma api_key_bypasses_local_engine_witness :
  sequence (mkSynth None ∅) [(remoteEnv, "hello"%string)]
  = (mkSynth None ∅,
     map (fun c => E_elevenlabs (snd c)) [(remoteEnv, "hello"%string)],
     map (fun c => Finished (elevenlabs (fst c) (snd c)))
         [(remoteEnv, "hello"%string)]).
Proof.
  apply (api_key_bypasses_local_engine (mkSynth None ∅)
           [(remoteEnv, "hello"%string)]).
  apply List.Forall_cons; [reflexivity | apply List.Forall_nil].
Defined.


Lemma overlapping_calls_both_create_witness :
  let a := begin (localEnv 1%nat) (mkSynth None ∅) "one" in
  let b := begin (localEnv 1%nat) (fst (fst a)) "two" in
  let a' := resume (localEnv 1%nat) (fst (fst b)) (snd a) in
  let b' := resume (localEnv 2%nat) (fst (fst a')) (snd b) in
  snd (fst a) ++ snd (fst b) ++ snd (fst a') ++ snd (fst b')
  = [E_create "./model.onnx"; E_create "./model.onnx";
     E_synthesize 1%nat "one"; E_synthesize 2%nat "two"]
  /\ speechSynthesizer (fst (fst b')) = Some 2%nat.
Proof.
  apply (overlapping_calls_both_create (localEnv 1%nat) (localEnv 1%nat)
           (localEnv 1%nat) (localEnv 2%nat) (mkSynth None ∅) "one" "two"
           1%nat 2%nat);
    reflexivity.
Defined.

End SpeechFacts.

(** ** The slash commands *)

Section CommandFacts.
Import Guild Pipeline Commands.

Lemma wanted_spec (channelId : string) (c : CachedChannel) :
  wanted channelId c = true ->
  Guild.channelId (cc_channel c) = channelId
  /\ type (cc_channel c) = GuildVoice.
Proof.
  unfold wanted. intros H. apply andb_true_iff in H. destruct H as [H1 H2].
  apply String.eqb_eq in H1. split; [exact H1|].
  destruct (type (cc_channel c)); try discriminate H2. reflexivity.
Qed.

(** X23. The join command joins at most one channel, and only a channel
    of the guild's cache that has the requested id and is of type
    GuildVoice; the join is the first thing the command does then.
    Without a channel option, without a guild, or when no such channel is
    cached, nothing is joined. *)
Theorem join_command_joins_requested_voice_channel (i : Interaction)
    (ch : Channel) :
  In (JoinChannel ch) (fst (handleJoinChannelCommand i)) ->
  exists (requested : string) (cache : list CachedChannel)
         (found : CachedChannel) (rest : list Event),
    channelOption i = Some requested
    /\ requested <> ""%string
    /\ guildChannels i = Some cache
    /\ In found cache
    /\ cc_channel found = ch
    /\ Guild.channelId ch = requested
    /\ type ch = GuildVoice
    /\ fst (handleJoinChannelCommand i) = JoinChannel ch :: rest
    /\ forall ch', ~ In (JoinChannel ch') rest.
Proof.
  unfold handleJoinChannelCommand, say.
  destruct (channelOption i) as [[|a s]|] eqn:Hopt;
    try (simpl; intros [H|[]]; discriminate H).
  destruct (guildChannels i) as [cache|] eqn:Hg; [|intros []].
  destruct (List.find (wanted (String a s)) cache) as [vc|] eqn:Hf;
    [|simpl; intros [H|[]]; discriminate H].
  apply List.find_some in Hf. destruct Hf as [Hin Hw].
  apply wanted_spec in Hw. destruct Hw as [Hid Ht].
  unfold tryCatch, andThen.
  destruct (reply i ("Joined voice channel: " ++ name vc)) eqn:Hr; simpl;
    [|destruct (reply i "Failed to join the voice channel."); simpl];
    (intros [H|H]; [injection H as <-|];
     [|repeat (destruct H as [H|H]; [discriminate H|]); destruct H]);
    exists (String a s), cache, vc; eexists;
    (repeat split; try eassumption; try reflexivity; try discriminate);
    intros ch' Hin'; simpl in Hin';
    repeat (destruct Hin' as [Hin'|Hin']; [discriminate Hin'|]);
    destruct Hin'.
Qed.

(** X24. When the confirmation of a join cannot be sent, the user is told
    that the join failed although it was made: the channel is joined, the
    error of the reply is reported on the console, and "Failed to join
    the voice channel." is sent. *)
Theorem join_reported_failed_though_made (i : Interaction)
    (requested : string) (cache : list CachedChannel) (found : CachedChannel)
    (e : Error) :
  channelOption i = Some requested ->
  requested <> ""%string ->
  guildChannels i = Some cache ->
  List.find (wanted requested) cache = Some found ->
  reply i ("Joined voice channel: " ++ name found) = Throw e ->
  handleJoinChannelCommand i
  = ([JoinChannel (cc_channel found);
      Reply ("Joined voice channel: " ++ name found);
      ConsoleError e;
      Reply "Failed to join the voice channel."],
     reply i "Failed to join the voice channel.").
Proof.
  intros Hopt Hne Hg Hf Hr. unfold handleJoinChannelCommand.
  rewrite Hopt. destruct requested as [|a s]; [congruence|].
  rewrite Hg, Hf. unfold tryCatch, andThen, say. rewrite Hr. simpl.
  destruct (reply i "Failed to join the voice channel."); reflexivity.
Qed.

Lemma join_command_joins_requested_voice_channel_witness :
  exists (requested : string) (cache : list CachedChannel)
         (found : CachedChannel) (rest : list Event),
    channelOption (askLounge (fun _ => false)) = Some requested
    /\ requested <> ""%string
    /\ guildChannels (askLounge (fun _ => false)) = Some cache
    /\ In found cache
    /\ cc_channel found = lounge
    /\ Guild.channelId lounge = requested
    /\ type lounge = GuildVoice
    /\ fst (handleJoinChannelCommand (askLounge (fun _ => false)))
       = JoinChannel lounge :: rest
    /\ forall ch', ~ In (JoinChannel ch') rest.
Proof.
  apply (join_command_joins_requested_voice_channel
           (askLounge (fun _ => false)) lounge).
  left. reflexivity.
Defined.

Lemma join_reported_failed_though_made_witness :
  handleJoinChannelCommand (askLounge (String.prefix "Joined"))
  = ([JoinChannel (cc_channel (mkCached lounge "Lounge"));
      Reply ("Joined voice channel: " ++ name (mkCached lounge "Lounge"));
      ConsoleError "Unknown interaction";
      Reply "Failed to join the voice channel."],
     reply (askLounge (String.prefix "Joined"))
           "Failed to join the voice channel.").
Proof.
  apply (join_reported_failed_though_made (askLounge (String.prefix "Joined"))
           "lounge"
           [mkCached botRoom "Bots"; mkCached lounge "Lounge"]
           (mkCached lounge "Lounge") "Unknown interaction");
    try reflexivity.
  discriminate.
Defined.

(** X25. The leave command destroys a connection exactly when the guild
    has one, it always ends with a reply, and it raises only when that
    last reply raised: a failure of [destroy] itself is caught, reported
    on the console and answered with "Failed to leave the voice
    channel.". *)
Theorem leave_command_always_answers (connection : option (Outcome unit))
    (i : Interaction) :
  (In Destroy (fst (handleLeaveChannelCommand connection i))
   <-> connection <> None)
  /\ (exists (pre : list Event) (msg : string),
        fst (handleLeaveChannelCommand connection i) = pre ++ [Reply msg]
        /\ snd (handleLeaveChannelCommand connection i) = reply i msg)
  /\ (forall e, connection = Some (Throw e) ->
        fst (handleLeaveChannelCommand connection i)
        = [Destroy; ConsoleError e;
           Reply "Failed to leave the voice channel."]).
Proof.
  unfold handleLeaveChannelCommand, tryCatch, andThen, say.
  destruct connection as [[[]|e]|]; simpl.
  - destruct (reply i "Left the voice channel.") eqn:Hr; simpl.
    + split; [split; [discriminate | auto]|].
      split; [|discriminate].
      exists [Destroy], "Left the voice channel."%string. destruct a; auto.
    + destruct (reply i "Failed to leave the voice channel.") eqn:Hr'; simpl;
        (split; [split; [discriminate | auto]|]);
        (split; [|discriminate]);
        exists [Destroy; Reply "Left the voice channel."; ConsoleError e],
               "Failed to leave the voice channel."%string; auto.
  - destruct (reply i "Failed to leave the voice channel.") eqn:Hr'; simpl;
      (split; [split; [discriminate | auto]|]);
      (split; [|intros e' [= <-]; reflexivity]);
      exists [Destroy; ConsoleError e],
             "Failed to leave the voice channel."%string; auto.
  - split; [split; [intros [H|[]]; discriminate H | congruence]|].
    split; [|discriminate].
    exists [], "Not currently in a voice channel."%string. auto.
Qed.

End CommandFacts.
